(** * Horizon Node.js SDK: the batching, flushing and retry engine

    A shallow embedding of [HorizonClient] (constructor, [captureLog],
    [flush] with its inner [send], and [autoCaptureErrors]) together with
    the properties of the engine: the retry schedule, the threshold and
    timer triggers, the drain, the single-timer invariant, the
    construction check and the fatal-error watchdog. The Winston and Pino
    transports, which batch on their own and send without retrying, follow
    in the same style.

    JavaScript's event loop is modelled by resumptions: an [async]
    function applied to the current heap runs its synchronous prefix and
    gives back the heap it leaves together with a [Task], which is either
    settled or suspended on an awaited operation with the rest of the
    function as a continuation that receives the heap as it is when the
    function resumes.

    What the model leaves out:
    - numbers are integers ([Z]): [NaN], fractions and the rounding of
      [Math.pow] play no part ([2 ^ attempt * 1000] is exact in a double for
      every attempt number a run can reach);
    - a backoff wait is the delay that the code hands to [setTimeout]; how
      the runtime treats a delay beyond its own range is not modelled;
    - the suspensions are the awaited [fetch] and the awaited backoff
      promise; the [await] of a call that has already settled, which resumes
      from the microtask queue of the same turn, is not a suspension of its
      own;
    - in [send] and [flush], [JSON.stringify(payload)] returns, and the
      body of the request is the payload itself. [send_json] and
      [flush_json] are the same functions with that evaluation written out:
      it sits inside the [try] and comes before the call of [fetch], so
      that a payload that cannot be serialised is never requested;
    - a value other than [undefined], [null], a boolean or a string is known
      by the text that [String] makes of it; a value that [String] cannot
      convert (an object without [toString]) is not modelled. *)

From Stdlib Require Import ZArith List String Bool Lia.
Import ListNotations.
Open Scope string_scope.
Open Scope list_scope.
Open Scope Z_scope.

(** ** Data model *)

(** [level: 'debug' | 'info' | 'warn' | 'error' | 'fatal'] *)
Inductive Level : Type := debug | info | warn | error | fatal.

(** The JavaScript values that reach a metadata object or reject a promise:
    the primitives that the code can tell apart, and any other value (a
    number, an array, an object), given by the text that [String] makes of
    it: ['42'] for [42], the empty text for [[]], ['[object Object]'] for
    [{}]. *)
Inductive JsValue : Type :=
| JUndefined
| JNull
| JBool (b : bool)
| JString (s : string)
| JOther (text : string).

(** An object literal, as the list of its own properties in creation order. *)
Definition JsObject : Type := list (string * JsValue).

(** [{ ...o, k: v }]: an existing property keeps its place and takes the new
    value, a new one is added last. *)
Fixpoint set_prop (k : string) (v : JsValue) (o : JsObject) : JsObject :=
  match o with
  | [] => [(k, v)]
  | (k', v') :: o' =>
      if String.eqb k' k then (k, v) :: o' else (k', v') :: set_prop k v o'
  end.

Fixpoint get_prop (k : string) (o : JsObject) : option JsValue :=
  match o with
  | [] => None
  | (k', v) :: o' => if String.eqb k' k then Some v else get_prop k o'
  end.

(** The object pushed on the buffer by [captureLog]. *)
Record LogRecord : Type := mkLogRecord {
  level : Level;
  message : string;
  metadata : JsObject;
  timestamp : string
}.

(** [HorizonClientOptions]: a field that is absent is [None]. *)
Record HorizonClientOptions : Type := mkOptions {
  opt_apiKey : option string;
  opt_ingestUrl : option string;
  opt_environment : option string;
  opt_batchSize : option Z;
  opt_flushInterval : option Z;
  opt_maxRetries : option Z
}.

(** A [NodeJS.Timeout] handle, named by its creation number. *)
Definition Timeout : Type := nat.

(** The fields of a [HorizonClient] instance. *)
Record HorizonClient : Type := mkClient {
  apiKey : string;
  ingestUrl : string;
  environment : string;
  batchSize : Z;
  flushInterval : Z;
  maxRetries : Z;
  buffer : list LogRecord;
  timer : option Timeout
}.

(** What the program does to its surroundings, in the order it does it. *)
Inductive Event : Type :=
| EvFetch (url key : string) (body : list LogRecord)
| EvSleep (ms : Z)
| EvSetTimeout (h : Timeout) (ms : Z)
| EvClearTimeout (h : Timeout)
| EvConsoleError (msg : string)
| EvExit (code : Z).

(** The process-level listeners that [autoCaptureErrors] registers. *)
Inductive Listener : Type := OnUncaughtException | OnUnhandledRejection.

(** The heap and the runtime around one client: the instance, the flush
    timers that the runtime holds armed, the next timer number, the
    registered listeners and the trace of events so far. *)
Record World : Type := mkWorld {
  client : HorizonClient;
  armed : list Timeout;
  next_timeout : Timeout;
  listeners : list Listener;
  trace : list Event
}.

(** ** Asynchronous functions as resumptions *)

(** What [await fetch(...)] gives back: a response, of which the code reads
    [status] and [ok], or a thrown error. *)
Inductive FetchResult : Type :=
| Response (status : Z)
| NetworkError (e : string).

(** [res.ok], true exactly for a status in 200..299. *)
Definition ok (status : Z) : bool := (200 <=? status) && (status <=? 299).

(** The request of the one [fetch] call site: the URL, the [x-api-key]
    header and the payload that is serialised as the body. *)
Record Request : Type := mkRequest {
  req_url : string;
  req_key : string;
  req_body : list LogRecord
}.

(** The state of a call of an [async] function once control is back with
    the event loop. [Stuck] is the model's own: recursion ran out of fuel. *)
#[warnings="-register-all"]
Inductive Task (A : Type) : Type :=
| Done (a : A)
| Threw (e : string)
| Exited (code : Z)
| Stuck
| AwaitFetch (req : Request) (k : FetchResult -> World -> World * Task A)
| AwaitSleep (ms : Z) (k : World -> World * Task A).

Arguments Done {A} a.
Arguments Threw {A} e.
Arguments Exited {A} code.
Arguments Stuck {A}.
Arguments AwaitFetch {A} req k.
Arguments AwaitSleep {A} ms k.

(** A computation: from the heap as it is to the heap it leaves at its first
    suspension (or its end) and the task in that state. *)
Definition M (A : Type) : Type := World -> World * Task A.

Definition ret {A} (a : A) : M A := fun w => (w, Done a).

Fixpoint bind_task {A B} (t : Task A) (f : A -> M B) (w : World)
  : World * Task B :=
  match t with
  | Done a => f a w
  | Threw e => (w, Threw e)
  | Exited c => (w, Exited c)
  | Stuck => (w, Stuck)
  | AwaitFetch req k =>
      (w, AwaitFetch req
            (fun r w' => let (w'', t') := k r w' in bind_task t' f w''))
  | AwaitSleep ms k =>
      (w, AwaitSleep ms
            (fun w' => let (w'', t') := k w' in bind_task t' f w''))
  end.

Definition bind {A B} (m : M A) (f : A -> M B) : M B :=
  fun w => let (w', t) := m w in bind_task t f w'.

Notation "x <- c1 ;; c2" := (bind c1 (fun x => c2))
  (at level 61, c1 at next level, right associativity).
Notation "c1 ;; c2" := (bind c1 (fun _ => c2))
  (at level 61, right associativity).

(** [try { body } catch (e) { handler }]: an error thrown by the body, before
    or after a suspension, enters the handler; the handler's own outcome is
    not caught again. *)
Fixpoint catch_task {A} (t : Task A) (h : string -> M A) (w : World)
  : World * Task A :=
  match t with
  | Done a => (w, Done a)
  | Threw e => h e w
  | Exited c => (w, Exited c)
  | Stuck => (w, Stuck)
  | AwaitFetch req k =>
      (w, AwaitFetch req
            (fun r w' => let (w'', t') := k r w' in catch_task t' h w''))
  | AwaitSleep ms k =>
      (w, AwaitSleep ms
            (fun w' => let (w'', t') := k w' in catch_task t' h w''))
  end.

Definition try_catch {A} (body : M A) (h : string -> M A) : M A :=
  fun w => let (w', t) := body w in catch_task t h w'.

(** *** Primitives of the runtime *)

Definition log_event (e : Event) (w : World) : World :=
  mkWorld (client w) (armed w) (next_timeout w) (listeners w) (trace w ++ [e]).

Definition set_client (c : HorizonClient) (w : World) : World :=
  mkWorld c (armed w) (next_timeout w) (listeners w) (trace w).

(** Reading [this]. *)
Definition this_ : M HorizonClient := fun w => (w, Done (client w)).

(** [this.buffer = b] *)
Definition set_buffer (b : list LogRecord) : M unit :=
  fun w =>
    let c := client w in
    (set_client (mkClient (apiKey c) (ingestUrl c) (environment c)
                   (batchSize c) (flushInterval c) (maxRetries c) b (timer c)) w,
     Done tt).

(** [this.timer = t] *)
Definition set_timer (t : option Timeout) : M unit :=
  fun w =>
    let c := client w in
    (set_client (mkClient (apiKey c) (ingestUrl c) (environment c)
                   (batchSize c) (flushInterval c) (maxRetries c) (buffer c) t) w,
     Done tt).

(** [setTimeout(() => this.flush(), ms)]: the runtime arms a fresh timer whose
    callback is the flush, and returns its handle. *)
Definition setTimeout_flush (ms : Z) : M Timeout :=
  fun w =>
    let h := next_timeout w in
    (mkWorld (client w) (armed w ++ [h]) (S h) (listeners w)
       (trace w ++ [EvSetTimeout h ms]),
     Done h).

(** [clearTimeout(h)]: the runtime disarms [h], if it is still armed. *)
Definition clearTimeout (h : Timeout) : M unit :=
  fun w =>
    (mkWorld (client w) (filter (fun h' => negb (Nat.eqb h' h)) (armed w))
       (next_timeout w) (listeners w) (trace w ++ [EvClearTimeout h]),
     Done tt).

(** [console.error(msg)] *)
Definition console_error (msg : string) : M unit :=
  fun w => (log_event (EvConsoleError msg) w, Done tt).

(** [await fetch(url, { method: 'POST', headers, body })]: the request is
    issued and the caller is suspended; it resumes with the status of the
    response, or with the error thrown at the [await]. *)
Definition fetch (url key : string) (body : list LogRecord) : M Z :=
  fun w =>
    (log_event (EvFetch url key body) w,
     AwaitFetch (mkRequest url key body)
       (fun r w' =>
          match r with
          | Response status => (w', Done status)
          | NetworkError e => (w', Threw e)
          end)).

(** [await new Promise(resolve => setTimeout(resolve, ms))] *)
Definition sleep (ms : Z) : M unit :=
  fun w => (log_event (EvSleep ms) w, AwaitSleep ms (fun w' => (w', Done tt))).

(** [process.exit(code)]: nothing after it runs. *)
Definition process_exit {A} (code : Z) : M A :=
  fun w => (log_event (EvExit code) w, Exited code).

Definition stuck {A} : M A := fun w => (w, Stuck).

(** An expression that throws [e]. *)
Definition throw {A} (e : string) : M A := fun w => (w, Threw e).

(** ** The client *)

(** [s || d] on a string that may be missing: the empty string is falsy. *)
Definition or_string (s : option string) (d : string) : string :=
  match s with
  | Some x => if String.eqb x "" then d else x
  | None => d
  end.

(** [n || d] on a number that may be missing: zero is falsy. *)
Definition or_number (n : option Z) (d : Z) : Z :=
  match n with
  | Some x => if x =? 0 then d else x
  | None => d
  end.

(** [!s] on a string that may be missing. *)
Definition falsy_string (s : option string) : bool :=
  match s with
  | Some x => String.eqb x ""
  | None => true
  end.

(** The outcome of [new HorizonClient(opts)]. *)
Inductive Constructed : Type :=
| Instance (c : HorizonClient)
| ThrowsError (msg : string).

(** [constructor(opts)] *)
Definition new_HorizonClient (opts : HorizonClientOptions) : Constructed :=
  let ingestUrl :=
    or_string (opt_ingestUrl opts) "https://horizon-api.bylinee.com/v1/ingest" in
  let environment := or_string (opt_environment opts) "production" in
  let batchSize := or_number (opt_batchSize opts) 50 in
  let flushInterval := or_number (opt_flushInterval opts) 2000 in
  let maxRetries := or_number (opt_maxRetries opts) 3 in
  if falsy_string (opt_apiKey opts) then
    ThrowsError "Horizon API Key is required"
  else
    Instance (mkClient (or_string (opt_apiKey opts) "") ingestUrl environment
                batchSize flushInterval maxRetries [] None).

(** How the body of the [try] in [send] completes: with a boolean, or with
    [return send(attempt + 1)], whose promise is handed over outside the
    [try] (a returned promise is not awaited inside it). *)
Inductive Completion : Type :=
| Return (b : bool)
| ReturnSend (attempt : Z).

(** The inner [send] of [flush], closed over [payload]. The attempt number
    only grows towards [this.maxRetries]; [fuel] bounds the recursion. *)
Fixpoint send (fuel : nat) (payload : list LogRecord) (attempt : Z) : M bool :=
  match fuel with
  | O => stuck
  | S fuel' =>
      c <- try_catch
             (this <- this_ ;;
              status <- fetch (ingestUrl this) (apiKey this) payload ;;
              if ok status || ((400 <=? status) && (status <? 500)) then
                ret (Return true)
              else
                this <- this_ ;;
                if (500 <=? status) && (attempt <? maxRetries this) then
                  let delay := 2 ^ attempt * 1000 in
                  sleep delay ;;
                  ret (ReturnSend (attempt + 1))
                else
                  ret (Return false))
             (fun e =>
                this <- this_ ;;
                if attempt <? maxRetries this then
                  let delay := 2 ^ attempt * 1000 in
                  sleep delay ;;
                  ret (ReturnSend (attempt + 1))
                else
                  ret (Return false)) ;;
      match c with
      | Return b => ret b
      | ReturnSend attempt' => send fuel' payload attempt'
      end
  end.

(** Fuel for [send(0)]: one attempt and at most [maxRetries] retries. *)
Definition send_fuel (c : HorizonClient) : nat := S (Z.to_nat (maxRetries c)).

(** [private async flush()] *)
Definition flush : M unit :=
  this <- this_ ;;
  if Nat.eqb (List.length (buffer this)) 0 then ret tt
  else
    match timer this with
    | Some h => clearTimeout h ;; set_timer None
    | None => ret tt
    end ;;
    this <- this_ ;;
    let payload := buffer this in
    set_buffer [] ;;
    this <- this_ ;;
    success <- send (send_fuel this) payload 0 ;;
    if negb success then
      console_error "[Horizon SDK] Failed to send logs after multiple retries."
    else ret tt.

(** [send] with the argument of [fetch] evaluated as the code has it:
    [JSON.stringify(payload)] comes first, inside the [try], and throws a
    [TypeError] on a value that JSON cannot hold (a [BigInt], a cycle), in
    which case [fetch] is not called and the [catch] block runs.
    [serialises a] tells whether the call returns at attempt [a]: the
    records of the payload share their nested values with the host, which may
    change them between two attempts. *)
Fixpoint send_json (serialises : Z -> bool) (fuel : nat)
    (payload : list LogRecord) (attempt : Z) : M bool :=
  match fuel with
  | O => stuck
  | S fuel' =>
      c <- try_catch
             (this <- this_ ;;
              status <- (if serialises attempt
                         then fetch (ingestUrl this) (apiKey this) payload
                         else throw "TypeError") ;;
              if ok status || ((400 <=? status) && (status <? 500)) then
                ret (Return true)
              else
                this <- this_ ;;
                if (500 <=? status) && (attempt <? maxRetries this) then
                  let delay := 2 ^ attempt * 1000 in
                  sleep delay ;;
                  ret (ReturnSend (attempt + 1))
                else
                  ret (Return false))
             (fun e =>
                this <- this_ ;;
                if attempt <? maxRetries this then
                  let delay := 2 ^ attempt * 1000 in
                  sleep delay ;;
                  ret (ReturnSend (attempt + 1))
                else
                  ret (Return false)) ;;
      match c with
      | Return b => ret b
      | ReturnSend attempt' => send_json serialises fuel' payload attempt'
      end
  end.

(** [flush] around [send_json]. *)
Definition flush_json (serialises : Z -> bool) : M unit :=
  this <- this_ ;;
  if Nat.eqb (List.length (buffer this)) 0 then ret tt
  else
    match timer this with
    | Some h => clearTimeout h ;; set_timer None
    | None => ret tt
    end ;;
    this <- this_ ;;
    let payload := buffer this in
    set_buffer [] ;;
    this <- this_ ;;
    success <- send_json serialises (send_fuel this) payload 0 ;;
    if negb success then
      console_error "[Horizon SDK] Failed to send logs after multiple retries."
    else ret tt.

(** [this.buffer.push(r)] *)
Definition buffer_push (r : LogRecord) : M unit :=
  this <- this_ ;;
  set_buffer (buffer this ++ [r]).

(** [async captureLog(level, message, metadata = {})]; [now] is what
    [new Date().toISOString()] reads. *)
Definition captureLog (level : Level) (message : string) (metadata : JsObject)
    (now : string) : M unit :=
  this <- this_ ;;
  buffer_push
    (mkLogRecord level message
       (set_prop "sdk_env" (JString (environment this)) metadata) now) ;;
  this <- this_ ;;
  if Z.of_nat (List.length (buffer this)) >=? batchSize this then
    flush
  else
    match timer this with
    | None =>
        h <- setTimeout_flush (flushInterval this) ;;
        set_timer (Some h)
    | Some _ => ret tt
    end.

(** An [Error] object: its [message] and its [stack], which may be absent. *)
Record JsError : Type := mkError {
  err_message : string;
  err_stack : option string
}.

(** The [reason] of a rejection: an [Error] or any other value. *)
Inductive Reason : Type :=
| ReasonError (e : JsError)
| ReasonValue (v : JsValue).

Definition js_of_option_string (s : option string) : JsValue :=
  match s with
  | Some x => JString x
  | None => JUndefined
  end.

(** [String(v)] *)
Definition js_String (v : JsValue) : string :=
  match v with
  | JUndefined => "undefined"
  | JNull => "null"
  | JBool true => "true"
  | JBool false => "false"
  | JString s => s
  | JOther text => text
  end.

(** The listener of ['uncaughtException']. *)
Definition on_uncaughtException (error : JsError) (now : string) : M unit :=
  console_error "[Horizon SDK] Uncaught Exception detected." ;;
  captureLog fatal (or_string (Some (err_message error)) "Uncaught Exception")
    [("stack", js_of_option_string (err_stack error));
     ("type", JString "uncaughtException")] now ;;
  flush ;;
  process_exit 1.

(** The listener of ['unhandledRejection']. *)
Definition on_unhandledRejection (reason : Reason) (now : string) : M unit :=
  let message :=
    match reason with
    | ReasonError e => err_message e
    | ReasonValue v => js_String v
    end in
  captureLog fatal (or_string (Some message) "Unhandled Rejection")
    [("type", JString "unhandledRejection");
     ("reason", match reason with
                | ReasonError e => js_of_option_string (err_stack e)
                | ReasonValue v => v
                end)] now.

(** [autoCaptureErrors()]: registers the two listeners on [process]. *)
Definition autoCaptureErrors : M unit :=
  fun w =>
    (mkWorld (client w) (armed w) (next_timeout w)
       (listeners w ++ [OnUncaughtException; OnUnhandledRejection]) (trace w),
     Done tt).

(** ** Running a task *)

(** A task run on its own to its end: the [i]-th [fetch] of the run receives
    [net i], every sleep is woken, and nothing else touches the heap in
    between. The result is the final heap, the settled task and the number of
    the next [fetch]. *)
Fixpoint run {A} (t : Task A) (net : nat -> FetchResult) (i : nat) (w : World)
  : World * Task A * nat :=
  match t with
  | AwaitFetch _ k => let (w', t') := k (net i) w in run t' net (S i) w'
  | AwaitSleep _ k => let (w', t') := k w in run t' net i w'
  | _ => (w, t, i)
  end.

(** A call run on its own from the heap [w], its first [fetch] being the
    [i]-th. *)
Definition exec_from {A} (m : M A) (net : nat -> FetchResult) (i : nat)
    (w : World) : World * Task A * nat :=
  let (w', t) := m w in run t net i w'.

Definition exec {A} (m : M A) (net : nat -> FetchResult) (w : World)
  : World * Task A :=
  fst (exec_from m net 0 w).

(** The heap around a fresh instance. *)
Definition boot (opts : HorizonClientOptions) : option World :=
  match new_HorizonClient opts with
  | Instance c => Some (mkWorld c [] 0%nat [] [])
  | ThrowsError _ => None
  end.

(** ** The event loop *)

(** The six configuration fields of an instance. *)
Definition config (c : HorizonClient)
  : string * string * string * Z * Z * Z :=
  (apiKey c, ingestUrl c, environment c, batchSize c, flushInterval c,
   maxRetries c).

(** The heap with the calls that are suspended on it. *)
Record System : Type := mkSystem {
  world : World;
  pending : list (Task unit)
}.

(** A call starts: its synchronous prefix runs now, the rest is pending. *)
Definition spawn (m : M unit) (s : System) : System :=
  let (w', t) := m (world s) in mkSystem w' (t :: pending s).

(** The runtime takes a timer that fires off its armed list. *)
Definition fire (h : Timeout) (w : World) : World :=
  mkWorld (client w) (filter (fun h' => negb (Nat.eqb h' h)) (armed w))
    (next_timeout w) (listeners w) (trace w).

(** One turn of the event loop: the host calls [captureLog],
    [autoCaptureErrors] or (past the [private] of the type checker) [flush],
    an armed flush timer fires, the process emits one of the two fault
    events to a registered listener, or a suspended call is resumed by the
    answer to its [fetch] or by the end of its sleep. *)
Inductive step : System -> System -> Prop :=
| step_captureLog s lvl msg md now :
    step s (spawn (captureLog lvl msg md now) s)
| step_autoCaptureErrors s :
    step s (spawn autoCaptureErrors s)
| step_flush s :
    step s (spawn flush s)
| step_timer s h :
    In h (armed (world s)) ->
    step s (spawn flush (mkSystem (fire h (world s)) (pending s)))
| step_uncaughtException s e now :
    In OnUncaughtException (listeners (world s)) ->
    step s (spawn (on_uncaughtException e now) s)
| step_unhandledRejection s r now :
    In OnUnhandledRejection (listeners (world s)) ->
    step s (spawn (on_unhandledRejection r now) s)
| step_fetched s ts1 req k ts2 r :
    pending s = ts1 ++ AwaitFetch req k :: ts2 ->
    step s (let (w', t') := k r (world s) in mkSystem w' (ts1 ++ t' :: ts2))
| step_woken s ts1 ms k ts2 :
    pending s = ts1 ++ AwaitSleep ms k :: ts2 ->
    step s (let (w', t') := k (world s) in mkSystem w' (ts1 ++ t' :: ts2)).

(** The states of a process that constructed its client from [opts]. *)
Inductive reachable (opts : HorizonClientOptions) : System -> Prop :=
| reach_boot w :
    boot opts = Some w -> reachable opts (mkSystem w [])
| reach_step s s' :
    reachable opts s -> step s s' -> reachable opts s'.




(** The runtime's armed flush timers as the handle [this.timer] tells them. *)
Definition timers_of (t : option Timeout) : list Timeout :=
  match t with
  | Some h => [h]
  | None => []
  end.

(** The invariant of the heap between turns, for a client configured as
    [cfg]: the configuration is as constructed, the armed flush timers are
    exactly the one the handle names, and a timer is only armed over a
    non-empty buffer. *)
Definition Inv (cfg : string * string * string * Z * Z * Z) (w : World)
  : Prop :=
  config (client w) = cfg /\
  armed w = timers_of (timer (client w)) /\
  (timer (client w) <> None -> buffer (client w) <> []).

(** What holds of a task at every point of its future: it resumes from a
    heap that satisfies [I] into one that does, it never runs out of fuel,
    it throws only if [throws] allows it, and a value it ends with
    satisfies [Q]. *)
Fixpoint task_inv {A} (I : World -> Prop) (Q : A -> Prop) (throws : bool)
    (t : Task A) : Prop :=
  match t with
  | Done a => Q a
  | Threw _ => throws = true
  | Exited _ => True
  | Stuck => False
  | AwaitFetch _ k =>
      forall r w, I w ->
        let (w', t') := k r w in I w' /\ task_inv I Q throws t'
  | AwaitSleep _ k =>
      forall w, I w ->
        let (w', t') := k w in I w' /\ task_inv I Q throws t'
  end.

Definition m_inv {A} (I : World -> Prop) (Q : A -> Prop) (throws : bool)
    (m : M A) : Prop :=
  forall w, I w -> let (w', t) := m w in I w' /\ task_inv I Q throws t.

(** ** Vocabulary of the statements *)

(** How the body of the [try] of attempt [a] may complete when the client
    allows [max] retries: with a boolean, or with the call of attempt
    [a + 1] while [a < max]. *)
Definition completes_for (max a : Z) (c : Completion) : Prop :=
  match c with
  | Return _ => True
  | ReturnSend a' => a' = a + 1 /\ a < max
  end.

(** The invariant of the event loop: the heap satisfies [Inv] and every
    suspended call keeps it, ends without throwing and never lacks fuel. *)
Definition SysInv (cfg : string * string * string * Z * Z * Z) (s : System)
  : Prop :=
  Inv cfg (world s) /\
  Forall (task_inv (Inv cfg) (fun _ : unit => True) false) (pending s).


(** The heap after the events [evs] and nothing else. *)
Definition log_events (evs : list Event) (w : World) : World :=
  mkWorld (client w) (armed w) (next_timeout w) (listeners w) (trace w ++ evs).

(** A 2xx or 4xx response: the condition under which [send] returns [true]. *)
Definition accepted (r : FetchResult) : bool :=
  match r with
  | Response s => ok s || ((400 <=? s) && (s <? 500))
  | NetworkError _ => false
  end.



(** A failed attempt that [send] retries: a status of 500 or more, or a
    thrown error. *)
Definition retryable (r : FetchResult) : bool :=
  match r with
  | Response s => 500 <=? s
  | NetworkError _ => true
  end.

(** The attempts of a batch that fails [n] times and is retried each time,
    from attempt number [a] on: the request, then the backoff wait. *)
Fixpoint retries (req : Event) (n : nat) (a : Z) : list Event :=
  match n with
  | O => []
  | S n' => req :: EvSleep (2 ^ a * 1000) :: retries req n' (a + 1)
  end.

(** The requests among a list of events. *)
Definition fetches (evs : list Event) : list Event :=
  filter (fun e => match e with EvFetch _ _ _ => true | _ => false end) evs.

(** The backoff waits among a list of events, in milliseconds. *)
Fixpoint delays (evs : list Event) : list Z :=
  match evs with
  | [] => []
  | EvSleep ms :: evs' => ms :: delays evs'
  | _ :: evs' => delays evs'
  end.

(** The messages written with [console.error] among a list of events. *)
Fixpoint console_errors (evs : list Event) : list string :=
  match evs with
  | [] => []
  | EvConsoleError msg :: evs' => msg :: console_errors evs'
  | _ :: evs' => console_errors evs'
  end.

(** The exits among a list of events. *)
Definition exits (evs : list Event) : list Event :=
  filter (fun e => match e with EvExit _ => true | _ => false end) evs.

(** The request that a flush of [c] sends for [payload]. *)
Definition fetch_event (c : HorizonClient) (payload : list LogRecord) : Event :=
  EvFetch (ingestUrl c) (apiKey c) payload.

Definition failed_message : string :=
  "[Horizon SDK] Failed to send logs after multiple retries.".

(** What [flush] does with the result of [send]. *)
Definition report (success : bool) : M unit :=
  if negb success then console_error failed_message else ret tt.

(** The heap that [flush] leaves when it starts to send: the timer cleared
    and forgotten, the buffer empty. *)
Definition drained (w : World) : World :=
  let c := client w in
  mkWorld
    (mkClient (apiKey c) (ingestUrl c) (environment c) (batchSize c)
       (flushInterval c) (maxRetries c) [] None)
    (match timer c with
     | Some h => filter (fun h' => negb (Nat.eqb h' h)) (armed w)
     | None => armed w
     end)
    (next_timeout w) (listeners w)
    (trace w ++ match timer c with
                | Some h => [EvClearTimeout h]
                | None => []
                end).

(** The record that [captureLog] builds. *)
Definition record_of (c : HorizonClient) (lvl : Level) (msg : string)
    (md : JsObject) (now : string) : LogRecord :=
  mkLogRecord lvl msg (set_prop "sdk_env" (JString (environment c)) md) now.

(** The heap after [this.buffer.push(r)]. *)
Definition pushed (r : LogRecord) (w : World) : World :=
  let c := client w in
  set_client
    (mkClient (apiKey c) (ingestUrl c) (environment c) (batchSize c)
       (flushInterval c) (maxRetries c) (buffer c ++ [r]) (timer c)) w.

(** The heap after [captureLog] armed the flush timer. *)
Definition timer_armed (w : World) : World :=
  let c := client w in
  let h := next_timeout w in
  mkWorld
    (mkClient (apiKey c) (ingestUrl c) (environment c) (batchSize c)
       (flushInterval c) (maxRetries c) (buffer c) (Some h))
    (armed w ++ [h]) (S h) (listeners w)
    (trace w ++ [EvSetTimeout h (flushInterval c)]).

(** The heap in which [captureLog] leaves a record that it did not flush:
    with the flush timer armed, by this call if it was not already. *)
Definition kept (r : LogRecord) (w : World) : World :=
  match timer (client w) with
  | None => timer_armed (pushed r w)
  | Some _ => pushed r w
  end.



(** The record that the ['unhandledRejection'] listener captures. *)
Definition rejection_record (c : HorizonClient) (r : Reason) (now : string)
  : LogRecord :=
  record_of c fatal
    (or_string
       (Some match r with
             | ReasonError e => err_message e
             | ReasonValue v => js_String v
             end) "Unhandled Rejection")
    [("type", JString "unhandledRejection");
     ("reason", match r with
                | ReasonError e => js_of_option_string (err_stack e)
                | ReasonValue v => v
                end)] now.

(** The request on which a task is suspended, if it is suspended on one. *)
Definition awaited_request {A} (t : Task A) : option Request :=
  match t with
  | AwaitFetch req _ => Some req
  | _ => None
  end.

(** What follows a finished part of a run: the rest, if it ended with a
    value; its own end otherwise. *)
Definition and_then {A B} (r : World * Task A * nat) (f : A -> M B)
    (net : nat -> FetchResult) : World * Task B * nat :=
  match r with
  | (w, Done a, i) => exec_from (f a) net i w
  | (w, Threw e, i) => (w, Threw e, i)
  | (w, Exited c, i) => (w, Exited c, i)
  | (w, _, i) => (w, Stuck, i)
  end.

(** What follows the body of a [try]: the handler, if it threw. *)
Definition or_else {A} (r : World * Task A * nat) (h : string -> M A)
    (net : nat -> FetchResult) : World * Task A * nat :=
  match r with
  | (w, Threw e, i) => exec_from (h e) net i w
  | _ => r
  end.

(** ** The logger transports

    The Winston transport ([HorizonWinstonTransport]) and the Pino transport
    (the default export of [pino-horizon.ts]) keep a buffer and a timer of
    their own and send without retrying. Their values are the primitives of
    JavaScript, numbers included (integers); their configuration is never
    assigned after construction and is passed along as a record. *)

(** A primitive value. *)
Inductive Value : Type :=
| VUndefined
| VNull
| VBool (b : bool)
| VNumber (n : Z)
| VString (s : string).

(** An object, as the list of its own properties in creation order. *)
Definition Obj : Type := list (string * Value).

(** Whether a value counts as true in [!v], [v || d] and [v ? a : b]. *)
Definition truthy (v : Value) : bool :=
  match v with
  | VUndefined => false
  | VNull => false
  | VBool b => b
  | VNumber n => negb (n =? 0)
  | VString s => negb (String.eqb s "")
  end.

(** [o.k] for a name that objects do not inherit: the own property, or
    [undefined] when [o] has none of that name. *)
Fixpoint prop (k : string) (o : Obj) : Value :=
  match o with
  | [] => VUndefined
  | (k', v) :: o' => if String.eqb k' k then v else prop k o'
  end.

(** The copy of [o] without the properties named in [ks]: the rest of a
    destructuring, or a spread followed by [delete]s. *)
Definition without (ks : list string) (o : Obj) : Obj :=
  filter (fun kv => negb (existsb (String.eqb (fst kv)) ks)) o.

(** The property names that every object literal inherits from
    [Object.prototype]: looked up in a level table they give a function or
    an object, not a level. *)
Definition object_prototype_members : list string :=
  ["constructor"; "__defineGetter__"; "__defineSetter__"; "hasOwnProperty";
   "__lookupGetter__"; "__lookupSetter__"; "isPrototypeOf";
   "propertyIsEnumerable"; "toString"; "valueOf"; "__proto__";
   "toLocaleString"].

(** What [TABLE[key] || 'info'] gives: a level of the table (or ['info']), or
    the inherited member when the key names one. *)
Inductive StoredLevel : Type :=
| Mapped (l : Level)
| Inherited (member : string).

(** [WINSTON_LEVEL_MAP[level] || 'info']. Only a string can name a key of
    the table: the key of any other primitive is its text, which is none of
    them. *)
Definition winston_level (v : Value) : StoredLevel :=
  match v with
  | VString s =>
      if String.eqb s "error" then Mapped error
      else if String.eqb s "warn" then Mapped warn
      else if String.eqb s "info" then Mapped info
      else if String.eqb s "http" then Mapped info
      else if String.eqb s "verbose" then Mapped debug
      else if String.eqb s "debug" then Mapped debug
      else if String.eqb s "silly" then Mapped debug
      else if existsb (String.eqb s) object_prototype_members then Inherited s
      else Mapped info
  | _ => Mapped info
  end.

(** [PINO_LEVEL_MAP[obj.level] || 'info']: the keys are the texts of 10, 20,
    30, 40, 50 and 60, which a number or a string can name. *)
Definition pino_level (v : Value) : StoredLevel :=
  match v with
  | VNumber n =>
      if n =? 10 then Mapped debug
      else if n =? 20 then Mapped debug
      else if n =? 30 then Mapped info
      else if n =? 40 then Mapped warn
      else if n =? 50 then Mapped error
      else if n =? 60 then Mapped fatal
      else Mapped info
  | VString s =>
      if String.eqb s "10" then Mapped debug
      else if String.eqb s "20" then Mapped debug
      else if String.eqb s "30" then Mapped info
      else if String.eqb s "40" then Mapped warn
      else if String.eqb s "50" then Mapped error
      else if String.eqb s "60" then Mapped fatal
      else if existsb (String.eqb s) object_prototype_members then Inherited s
      else Mapped info
  | _ => Mapped info
  end.

(** The object that a transport pushes on its buffer. *)
Record Entry : Type := mkEntry {
  entry_level : StoredLevel;
  entry_message : Value;
  entry_metadata : Obj;
  entry_timestamp : string
}.

(** The options of a transport: a field that is absent is [None]. *)
Record TransportOptions : Type := mkTransportOptions {
  topt_apiKey : option string;
  topt_ingestUrl : option string;
  topt_batchSize : option Z;
  topt_flushInterval : option Z
}.

(** What a transport keeps of its options. *)
Record TransportConfig : Type := mkTransportConfig {
  t_apiKey : string;
  t_ingestUrl : string;
  t_batchSize : Z;
  t_flushInterval : Z
}.

(** The outcome of constructing a transport. *)
Inductive TransportConstructed : Type :=
| Transport (cfg : TransportConfig)
| TransportThrows (msg : string).

(** [constructor(opts)] of [HorizonWinstonTransport], after [super(opts)]. *)
Definition new_HorizonWinstonTransport (opts : TransportOptions)
  : TransportConstructed :=
  let ingestUrl :=
    or_string (topt_ingestUrl opts) "http://localhost:5000/v1/ingest" in
  let batchSize := or_number (topt_batchSize opts) 50 in
  let flushInterval := or_number (topt_flushInterval opts) 2000 in
  if falsy_string (topt_apiKey opts) then
    TransportThrows "Horizon API Key is required for Winston Transport"
  else
    Transport (mkTransportConfig (or_string (topt_apiKey opts) "") ingestUrl
                 batchSize flushInterval).

(** A destructuring default, [{ x = d } = opts]: only a missing [x] takes
    it. *)
Definition or_default {A} (x : option A) (d : A) : A :=
  match x with
  | Some v => v
  | None => d
  end.

(** The head of the Pino transport function: the destructuring of [opts] and
    the check of the key. *)
Definition pino_options (opts : TransportOptions) : TransportConstructed :=
  let ingestUrl :=
    or_default (topt_ingestUrl opts) "http://localhost:5000/v1/ingest" in
  let batchSize := or_default (topt_batchSize opts) 50 in
  let flushInterval := or_default (topt_flushInterval opts) 2000 in
  if falsy_string (topt_apiKey opts) then
    TransportThrows "Horizon API Key is required for ingestion"
  else
    Transport (mkTransportConfig (or_default (topt_apiKey opts) "") ingestUrl
                 batchSize flushInterval).

(** The lines that the transports write to the console: the text is told by
    the constructor, the values spliced in or passed along are its
    arguments. *)
Inductive Diagnostic : Type :=
| WinstonIngestionFailed (status : Z) (err_error : Value)
| WinstonUnreachable (e_message : string)
| PinoIngestionFailed (status : Z) (err_error : Value)
| PinoCritical (e : string).

(** What a transport does to its surroundings. *)
Inductive TransportEvent : Type :=
| TvFetch (url key : string) (body : list Entry)
| TvSetTimeout (h : Timeout) (ms : Z)
| TvClearTimeout (h : Timeout)
| TvSetImmediateLogged (info : Obj)
| TvCallback
| TvWarn (line : Diagnostic)
| TvError (line : Diagnostic).

(** The mutable state of a transport and the runtime around it. *)
Record Heap : Type := mkHeap {
  h_buffer : list Entry;
  h_timer : option Timeout;
  h_armed : list Timeout;
  h_next : Timeout;
  h_trace : list TransportEvent
}.

(** What [res.json()] finds in the body of a response: no JSON, [null], or a
    value whose [error] property is [err_error] ([undefined] if it has
    none). *)
Inductive Body : Type :=
| BodyInvalid
| BodyNull
| BodyWith (err_error : Value).

(** What [await fetch(...)] gives back. *)
Inductive Answer : Type :=
| Answered (status : Z) (body : Body)
| Failed (e : string).

(** The state of an [async] call of a transport: settled, or suspended on
    the request or on the reading of a body. *)
#[warnings="-register-all"]
Inductive Job (A : Type) : Type :=
| Settled (a : A)
| Raised (e : string)
| OnFetch (url key : string) (body : list Entry)
    (k : Answer -> Heap -> Heap * Job A)
| OnBody (k : Heap -> Heap * Job A).

Arguments Settled {A} a.
Arguments Raised {A} e.
Arguments OnFetch {A} url key body k.
Arguments OnBody {A} k.

Definition TM (A : Type) : Type := Heap -> Heap * Job A.

Definition jret {A} (a : A) : TM A := fun w => (w, Settled a).

Definition jraise {A} (e : string) : TM A := fun w => (w, Raised e).

Fixpoint jbind_job {A B} (t : Job A) (f : A -> TM B) (w : Heap)
  : Heap * Job B :=
  match t with
  | Settled a => f a w
  | Raised e => (w, Raised e)
  | OnFetch url key body k =>
      (w, OnFetch url key body
            (fun r w' => let (w'', t') := k r w' in jbind_job t' f w''))
  | OnBody k =>
      (w, OnBody (fun w' => let (w'', t') := k w' in jbind_job t' f w''))
  end.

Definition jbind {A B} (m : TM A) (f : A -> TM B) : TM B :=
  fun w => let (w', t) := m w in jbind_job t f w'.

Notation "x <-- c1 ;; c2" := (jbind c1 (fun x => c2))
  (at level 61, c1 at next level, right associativity).

Fixpoint jcatch_job {A} (t : Job A) (h : string -> TM A) (w : Heap)
  : Heap * Job A :=
  match t with
  | Settled a => (w, Settled a)
  | Raised e => h e w
  | OnFetch url key body k =>
      (w, OnFetch url key body
            (fun r w' => let (w'', t') := k r w' in jcatch_job t' h w''))
  | OnBody k =>
      (w, OnBody (fun w' => let (w'', t') := k w' in jcatch_job t' h w''))
  end.

(** [try { body } catch (e) { h }], and [promise.catch(h)]. *)
Definition jcatch {A} (body : TM A) (h : string -> TM A) : TM A :=
  fun w => let (w', t) := body w in jcatch_job t h w'.

Definition tlog (e : TransportEvent) (w : Heap) : Heap :=
  mkHeap (h_buffer w) (h_timer w) (h_armed w) (h_next w) (h_trace w ++ [e]).

Definition heap : TM Heap := fun w => (w, Settled w).

Definition jset_buffer (b : list Entry) : TM unit :=
  fun w => (mkHeap b (h_timer w) (h_armed w) (h_next w) (h_trace w), Settled tt).

Definition jset_timer (t : option Timeout) : TM unit :=
  fun w => (mkHeap (h_buffer w) t (h_armed w) (h_next w) (h_trace w), Settled tt).

(** [setTimeout(flush, ms)] *)
Definition jsetTimeout (ms : Z) : TM Timeout :=
  fun w =>
    let h := h_next w in
    (mkHeap (h_buffer w) (h_timer w) (h_armed w ++ [h]) (S h)
       (h_trace w ++ [TvSetTimeout h ms]),
     Settled h).

Definition jclearTimeout (h : Timeout) : TM unit :=
  fun w =>
    (mkHeap (h_buffer w) (h_timer w)
       (filter (fun h' => negb (Nat.eqb h' h)) (h_armed w)) (h_next w)
       (h_trace w ++ [TvClearTimeout h]),
     Settled tt).

Definition jwarn (line : Diagnostic) : TM unit :=
  fun w => (tlog (TvWarn line) w, Settled tt).

Definition jerror (line : Diagnostic) : TM unit :=
  fun w => (tlog (TvError line) w, Settled tt).

(** [await fetch(url, { method: 'POST', headers, body })]: resumes with the
    status and the body of the response, or with the error thrown. *)
Definition jfetch (url key : string) (body : list Entry) : TM (Z * Body) :=
  fun w =>
    (tlog (TvFetch url key body) w,
     OnFetch url key body
       (fun r w' =>
          match r with
          | Answered status b => (w', Settled (status, b))
          | Failed e => (w', Raised e)
          end)).

(** What [res.json()] resolves to. *)
Inductive Parsed : Type :=
| ParsedNull
| ParsedWith (err_error : Value).

(** [await res.json()]: rejects when the body is no JSON. *)
Definition res_json (b : Body) : TM Parsed :=
  fun w =>
    (w, OnBody
          (fun w' =>
             match b with
             | BodyInvalid => (w', Raised "Unexpected token in JSON")
             | BodyNull => (w', Settled ParsedNull)
             | BodyWith v => (w', Settled (ParsedWith v))
             end)).

(** [err.error]: a [TypeError] on [null]. *)
Definition err_error_of (err : Parsed) : TM Value :=
  match err with
  | ParsedNull => jraise "Cannot read properties of null (reading 'error')"
  | ParsedWith v => jret v
  end.

(** [private async flush()] of the Winston transport. *)
Definition winston_flush (cfg : TransportConfig) : TM unit :=
  this <-- heap ;;
  if Nat.eqb (List.length (h_buffer this)) 0 then jret tt
  else
    let payload := h_buffer this in
    _ <-- jset_buffer [] ;;
    _ <-- match h_timer this with
          | Some h => _ <-- jclearTimeout h ;; jset_timer None
          | None => jret tt
          end ;;
    jcatch
      (res <-- jfetch (t_ingestUrl cfg) (t_apiKey cfg) payload ;;
       if negb (ok (fst res)) then
         err <-- jcatch (res_json (snd res))
                   (fun _ => jret (ParsedWith (VString "Unknown response"))) ;;
         v <-- err_error_of err ;;
         jwarn (WinstonIngestionFailed (fst res) v)
       else jret tt)
      (fun e => jwarn (WinstonUnreachable e)).

(** [log(info, callback)] of the Winston transport; [now] is what
    [new Date().toISOString()] reads. It is not [async]: it gives back the
    heap it leaves and the flush it has started, if any, which it does not
    await. *)
Definition winston_log (cfg : TransportConfig) (info : Obj) (now : string)
    (w : Heap) : Heap * option (Job unit) :=
  let w1 := tlog (TvSetImmediateLogged info) w in
  let level := prop "level" info in
  let message := prop "message" info in
  let metadata := without ["level"; "message"] info in
  let entry :=
    mkEntry (winston_level level)
      (if truthy message then message else VString "") metadata now in
  let w2 :=
    mkHeap (h_buffer w1 ++ [entry]) (h_timer w1) (h_armed w1) (h_next w1)
      (h_trace w1) in
  let (w3, started) :=
    if Z.of_nat (List.length (h_buffer w2)) >=? t_batchSize cfg then
      let (w', t) := winston_flush cfg w2 in (w', Some t)
    else
      match h_timer w2 with
      | None =>
          let (w', _) :=
            (h <-- jsetTimeout (t_flushInterval cfg) ;; jset_timer (Some h)) w2
          in (w', None)
      | Some _ => (w2, None)
      end in
  (tlog TvCallback w3, started).

(** [async close()] of the Winston transport. *)
Definition winston_close (cfg : TransportConfig) : TM unit :=
  winston_flush cfg.

(** [flush] of the Pino transport. *)
Definition pino_flush (cfg : TransportConfig) : TM unit :=
  this <-- heap ;;
  if Nat.eqb (List.length (h_buffer this)) 0 then jret tt
  else
    let payload := h_buffer this in
    _ <-- jset_buffer [] ;;
    _ <-- match h_timer this with
          | Some h => _ <-- jclearTimeout h ;; jset_timer None
          | None => jret tt
          end ;;
    jcatch
      (res <-- jfetch (t_ingestUrl cfg) (t_apiKey cfg) payload ;;
       if negb (ok (fst res)) then
         err <-- jcatch (res_json (snd res))
                   (fun _ => jret (ParsedWith (VString "Unknown server error"))) ;;
         v <-- err_error_of err ;;
         jwarn (PinoIngestionFailed (fst res) v)
       else jret tt)
      (fun e => jerror (PinoCritical e)).

(** One turn of [for await (const obj of source)] in the Pino transport, for
    an item that is an object ([Some]) or a falsy value ([None]). [iso] is
    [new Date(t).toISOString()], which throws on a time that is no date;
    [now] is what [new Date().toISOString()] reads. *)
Definition pino_write (cfg : TransportConfig) (iso : Value -> option string)
    (item : option Obj) (now : string) : TM unit :=
  match item with
  | None => jret tt
  | Some obj =>
      let level := pino_level (prop "level" obj) in
      let message :=
        if truthy (prop "msg" obj) then prop "msg" obj
        else VString "No message" in
      timestamp <--
        (if truthy (prop "time" obj) then
           match iso (prop "time" obj) with
           | Some t => jret t
           | None => jraise "Invalid time value"
           end
         else jret now) ;;
      let metadata := without ["level"; "msg"; "time"; "v"] obj in
      this <-- heap ;;
      _ <-- jset_buffer
              (h_buffer this ++ [mkEntry level message metadata timestamp]) ;;
      this <-- heap ;;
      if Z.of_nat (List.length (h_buffer this)) >=? t_batchSize cfg then
        pino_flush cfg
      else
        match h_timer this with
        | None =>
            h <-- jsetTimeout (t_flushInterval cfg) ;; jset_timer (Some h)
        | Some _ => jret tt
        end
  end.

(** The stream function of the Pino transport over the items that the
    source yields, each with the clock at its turn. *)
Fixpoint pino_stream (cfg : TransportConfig) (iso : Value -> option string)
    (items : list (option Obj * string)) : TM unit :=
  match items with
  | [] => jret tt
  | (item, now) :: rest =>
      _ <-- pino_write cfg iso item now ;; pino_stream cfg iso rest
  end.


(** A job run on its own to its end: the [i]-th request receives [net i]. *)
Fixpoint jrun {A} (t : Job A) (net : nat -> Answer) (i : nat) (w : Heap)
  : Heap * Job A * nat :=
  match t with
  | OnFetch _ _ _ k => let (w', t') := k (net i) w in jrun t' net (S i) w'
  | OnBody k => let (w', t') := k w in jrun t' net i w'
  | _ => (w, t, i)
  end.

(** A call of a transport run on its own, its first request being the
    [i]-th. *)
Definition jexec_from {A} (m : TM A) (net : nat -> Answer) (i : nat)
    (w : Heap) : Heap * Job A * nat :=
  let (w', t) := m w in jrun t net i w'.


(** The heap after the events [evs] and nothing else. *)
Definition tlogs (evs : list TransportEvent) (w : Heap) : Heap :=
  mkHeap (h_buffer w) (h_timer w) (h_armed w) (h_next w) (h_trace w ++ evs).

(** What follows a finished part of a run of a transport. *)
Definition jthen {A B} (r : Heap * Job A * nat) (f : A -> TM B)
    (net : nat -> Answer) : Heap * Job B * nat :=
  match r with
  | (w, Settled a, i) => jexec_from (f a) net i w
  | (w, Raised e, i) => (w, Raised e, i)
  | (w, _, i) => (w, Raised "not run to its end", i)
  end.

(** The entries that the requests among a list of events carried, in the
    order they were sent. *)
Fixpoint bodies (evs : list TransportEvent) : list Entry :=
  match evs with
  | [] => []
  | TvFetch _ _ body :: evs' => body ++ bodies evs'
  | _ :: evs' => bodies evs'
  end.

(** The entry that the Winston transport makes of [info]. *)
Definition winston_entry (info : Obj) (now : string) : Entry :=
  mkEntry (winston_level (prop "level" info))
    (if truthy (prop "message" info) then prop "message" info else VString "")
    (without ["level"; "message"] info) now.

(** The entry that the Pino transport makes of [obj] when its time, if it
    has one, reads as [t]. *)
Definition pino_entry (obj : Obj) (t : string) : Entry :=
  mkEntry (pino_level (prop "level" obj))
    (if truthy (prop "msg" obj) then prop "msg" obj else VString "No message")
    (without ["level"; "msg"; "time"; "v"] obj) t.

(** The timestamp of a Pino object whose time is a date or falsy. *)
Definition pino_time (iso : Value -> option string) (obj : Obj)
    (now : string) : option string :=
  if truthy (prop "time" obj) then iso (prop "time" obj) else Some now.

(** The entries of the items of a stream: a falsy item gives none. *)
Fixpoint pino_entries (iso : Value -> option string)
    (items : list (option Obj * string)) : list Entry :=
  match items with
  | [] => []
  | (None, _) :: rest => pino_entries iso rest
  | (Some obj, now) :: rest =>
      match pino_time iso obj now with
      | Some t => pino_entry obj t :: pino_entries iso rest
      | None => pino_entries iso rest
      end
  end.

(** Every object of the stream has a time that is a date, or none. *)
Definition times_valid (iso : Value -> option string)
    (items : list (option Obj * string)) : Prop :=
  Forall (fun it => match fst it with
                    | Some obj => pino_time iso obj (snd it) <> None
                    | None => True
                    end) items.

(** The host logs the infos one after the other, nothing else running in
    between: the heap after the last call and the flushes started on the
    way. *)
Fixpoint winston_logs (cfg : TransportConfig) (infos : list (Obj * string))
    (w : Heap) : Heap * list (Job unit) :=
  match infos with
  | [] => (w, [])
  | (inf, now) :: rest =>
      let (w1, started) := winston_log cfg inf now w in
      let (w2, jobs) := winston_logs cfg rest w1 in
      (w2, match started with Some t => t :: jobs | None => jobs end)
  end.


(** The console lines of the Pino flush for an answer to its request. *)
Definition pino_lines (r : Answer) : list TransportEvent :=
  match r with
  | Failed e => [TvError (PinoCritical e)]
  | Answered status body =>
      if ok status then []
      else
        match body with
        | BodyInvalid =>
            [TvWarn (PinoIngestionFailed status (VString "Unknown server error"))]
        | BodyNull =>
            [TvError (PinoCritical
                        "Cannot read properties of null (reading 'error')")]
        | BodyWith v => [TvWarn (PinoIngestionFailed status v)]
        end
  end.

(** The requests among the events of a transport. *)
Definition requests (evs : list TransportEvent) : list TransportEvent :=
  filter (fun e => match e with TvFetch _ _ _ => true | _ => false end) evs.

(** The console lines among the events of a transport. *)
Definition console_lines (evs : list TransportEvent) : list TransportEvent :=
  filter (fun e => match e with
                   | TvWarn _ => true
                   | TvError _ => true
                   | _ => false
                   end) evs.

(** The heap that a transport's flush leaves when it sends: buffer empty,
    timer cleared and forgotten. *)
Definition emptied (w : Heap) : Heap :=
  mkHeap []  None
    (match h_timer w with
     | Some h => filter (fun h' => negb (Nat.eqb h' h)) (h_armed w)
     | None => h_armed w
     end)
    (h_next w)
    (h_trace w ++ match h_timer w with
                  | Some h => [TvClearTimeout h]
                  | None => []
                  end).

(** The request on which a job is suspended, if it is suspended on one. *)
Definition awaited_batch {A} (t : Job A) : option (list Entry) :=
  match t with
  | OnFetch _ _ body _ => Some body
  | _ => None
  end.

(** The heap in which a transport leaves an entry that it did not flush:
    with the flush timer armed, by this call if it was not already. *)
Definition held (cfg : TransportConfig) (e : Entry) (w : Heap) : Heap :=
  match h_timer w with
  | Some h =>
      mkHeap (h_buffer w ++ [e]) (Some h) (h_armed w) (h_next w) (h_trace w)
  | None =>
      mkHeap (h_buffer w ++ [e]) (Some (h_next w)) (h_armed w ++ [h_next w])
        (S (h_next w))
        (h_trace w ++ [TvSetTimeout (h_next w) (t_flushInterval cfg)])
  end.

(** The heap after a transport pushed an entry. *)
Definition added (e : Entry) (w : Heap) : Heap :=
  mkHeap (h_buffer w ++ [e]) (h_timer w) (h_armed w) (h_next w) (h_trace w).

(** What the buffer and the timer of a transport satisfy between calls: the
    armed timers are the one the handle names, and a timer is armed exactly
    over a non-empty buffer. *)
Definition Settled_heap (w : Heap) : Prop :=
  h_armed w = timers_of (h_timer w) /\
  (h_buffer w = [] <-> h_timer w = None).

(** The calls of [callback] among the events of a transport. *)
Definition callbacks (evs : list TransportEvent) : list TransportEvent :=
  filter (fun e => match e with TvCallback => true | _ => false end) evs.

(** ** Vocabulary of the further properties *)




(** The sum of the backoff waits among a list of events, in milliseconds. *)
Definition total_delay (evs : list Event) : Z :=
  fold_right Z.add 0 (delays evs).

(** A request as a client configured with [url], [key] and the batch size
    [size] makes it: to that URL, with that key, and with at least one record
    and at most [size] of them (one, if [size] is not positive). *)
Definition request_ok (url key : string) (size : Z) (e : Event) : Prop :=
  match e with
  | EvFetch u k body =>
      u = url /\ k = key /\ body <> [] /\
      Z.of_nat (List.length body) <= Z.max 1 size
  | _ => True
  end.

(** The invariant of the heap between turns, with what [Inv] leaves out: a
    buffered record always has its flush timer armed, a non-empty buffer is
    below the batch size, and every request so far was well formed. *)
Definition Tidy (cfg : string * string * string * Z * Z * Z) (w : World)
  : Prop :=
  Inv cfg w /\
  (buffer (client w) <> [] -> timer (client w) <> None) /\
  (buffer (client w) <> [] ->
   Z.of_nat (List.length (buffer (client w))) < batchSize (client w)) /\
  Forall
    (request_ok (ingestUrl (client w)) (apiKey (client w))
       (batchSize (client w)))
    (trace w).

(** [Tidy] of the heap, and of every suspended call. *)
Definition SysTidy (cfg : string * string * string * Z * Z * Z) (s : System)
  : Prop :=
  Tidy cfg (world s) /\
  Forall (task_inv (Tidy cfg) (fun _ : unit => True) false) (pending s).


(** The waits of a batch that is never requested, from attempt [a] on, with
    [n] retries left: one backoff wait per retry and nothing else. *)
Fixpoint backoff (n : nat) (a : Z) : list Event :=
  match n with
  | O => []
  | S n' => EvSleep (2 ^ a * 1000) :: backoff n' (a + 1)
  end.

(** How the constructor fills a field from an option with [given || dflt]:
    the default when the option is missing or is the falsy value, the option
    itself otherwise, and so never the falsy value. *)
Definition defaulted {A} (given : option A) (falsy dflt field : A) : Prop :=
  (given = None \/ given = Some falsy -> field = dflt) /\
  (forall x, given = Some x -> x <> falsy -> field = x) /\
  field <> falsy.

(** ** Induction on tasks *)

Section TaskInduction.
Variables (A : Type) (P : Task A -> Prop).
Hypothesis HDone : forall a, P (Done a).
Hypothesis HThrew : forall e, P (Threw e).
Hypothesis HExited : forall c, P (Exited c).
Hypothesis HStuck : P Stuck.
Hypothesis HFetch :
  forall req k, (forall r w, P (snd (k r w))) -> P (AwaitFetch req k).
Hypothesis HSleep :
  forall ms k, (forall w, P (snd (k w))) -> P (AwaitSleep ms k).

Fixpoint Task_induction (t : Task A) : P t :=
  match t with
  | Done a => HDone a
  | Threw e => HThrew e
  | Exited c => HExited c
  | Stuck => HStuck
  | AwaitFetch req k =>
      HFetch req k
        (fun r w =>
           match k r w as p return P (snd p) with
           | (_, t') => Task_induction t'
           end)
  | AwaitSleep ms k =>
      HSleep ms k
        (fun w =>
           match k w as p return P (snd p) with
           | (_, t') => Task_induction t'
           end)
  end.
End TaskInduction.

Section JobInduction.
Variables (A : Type) (P : Job A -> Prop).
Hypothesis HSettled : forall a, P (Settled a).
Hypothesis HRaised : forall e, P (Raised e).
Hypothesis HOnFetch :
  forall url key body k,
    (forall r w, P (snd (k r w))) -> P (OnFetch url key body k).
Hypothesis HOnBody : forall k, (forall w, P (snd (k w))) -> P (OnBody k).

Fixpoint Job_induction (t : Job A) : P t :=
  match t with
  | Settled a => HSettled a
  | Raised e => HRaised e
  | OnFetch url key body k =>
      HOnFetch url key body k
        (fun r w =>
           match k r w as p return P (snd p) with
           | (_, t') => Job_induction t'
           end)
  | OnBody k =>
      HOnBody k
        (fun w =>
           match k w as p return P (snd p) with
           | (_, t') => Job_induction t'
           end)
  end.
End JobInduction.

(** ** Running composed computations *)

Lemma run_bind_task {A B} (f : A -> M B) (net : nat -> FetchResult)
    (t : Task A) :
  forall i w,
    (let (w1, t1) := bind_task t f w in run t1 net i w1) =
    and_then (run t net i w) f net.
Proof.
  induction t as [a|e|c| |req k IH|ms k IH] using Task_induction;
    intros i w; try reflexivity.
  - simpl. specialize (IH (net i) w (S i)).
    destruct (k (net i) w) as [w' t']. symmetry. rewrite <- IH. reflexivity.
  - simpl. specialize (IH w i).
    destruct (k w) as [w' t']. symmetry. rewrite <- IH. reflexivity.
Qed.

Lemma exec_bind {A B} (m : M A) (f : A -> M B) net i w :
  exec_from (bind m f) net i w = and_then (exec_from m net i w) f net.
Proof.
  unfold exec_from, bind. destruct (m w) as [w' t]. apply run_bind_task.
Qed.

Lemma run_catch_task {A} (h : string -> M A) (net : nat -> FetchResult)
    (t : Task A) :
  forall i w,
    (let (w1, t1) := catch_task t h w in run t1 net i w1) =
    or_else (run t net i w) h net.
Proof.
  induction t as [a|e|c| |req k IH|ms k IH] using Task_induction;
    intros i w; try reflexivity.
  - simpl. specialize (IH (net i) w (S i)).
    destruct (k (net i) w) as [w' t']. symmetry. rewrite <- IH. reflexivity.
  - simpl. specialize (IH w i).
    destruct (k w) as [w' t']. symmetry. rewrite <- IH. reflexivity.
Qed.

Lemma exec_try_catch {A} (body : M A) (h : string -> M A) net i w :
  exec_from (try_catch body h) net i w =
  or_else (exec_from body net i w) h net.
Proof.
  unfold exec_from, try_catch. destruct (body w) as [w' t].
  apply run_catch_task.
Qed.

(** ** One attempt of [send] *)

Lemma exec_send_S fuel payload a net i w :
  exec_from (send (S fuel) payload a) net i w =
  let w1 := log_event (fetch_event (client w) payload) w in
  let w2 := log_event (EvSleep (2 ^ a * 1000)) w1 in
  match net i with
  | Response s =>
      if ok s || ((400 <=? s) && (s <? 500)) then (w1, Done true, S i)
      else if (500 <=? s) && (a <? maxRetries (client w)) then
        exec_from (send fuel payload (a + 1)) net (S i) w2
      else (w1, Done false, S i)
  | NetworkError _ =>
      if a <? maxRetries (client w) then
        exec_from (send fuel payload (a + 1)) net (S i) w2
      else (w1, Done false, S i)
  end.
Proof.
  unfold exec_from. cbn [send].
  unfold bind, try_catch, this_, fetch; simpl.
  destruct (net i) as [s|e]; simpl.
  - destruct (ok s || ((400 <=? s) && (s <? 500))); simpl; [reflexivity|].
    unfold bind, this_; simpl.
    destruct ((500 <=? s) && (a <? maxRetries (client w))); simpl;
      reflexivity.
  - unfold bind, this_; simpl.
    destruct (a <? maxRetries (client w)); simpl; reflexivity.
Qed.

(** ** Event bookkeeping *)

Lemma log_events_nil w : log_events [] w = w.
Proof. destruct w; unfold log_events; simpl. now rewrite app_nil_r. Qed.

Lemma log_events_app evs1 evs2 w :
  log_events evs2 (log_events evs1 w) = log_events (evs1 ++ evs2) w.
Proof. unfold log_events; simpl. now rewrite app_assoc. Qed.

Lemma log_event_events e w : log_event e w = log_events [e] w.
Proof. reflexivity. Qed.

Lemma fetches_app evs1 evs2 :
  fetches (evs1 ++ evs2) = fetches evs1 ++ fetches evs2.
Proof. apply filter_app. Qed.

Lemma exits_app evs1 evs2 : exits (evs1 ++ evs2) = exits evs1 ++ exits evs2.
Proof. apply filter_app. Qed.

Lemma delays_app evs1 evs2 :
  delays (evs1 ++ evs2) = delays evs1 ++ delays evs2.
Proof.
  induction evs1 as [|e evs1 IH]; simpl; [reflexivity|].
  destruct e; simpl; now rewrite ?IH.
Qed.

Lemma console_errors_app evs1 evs2 :
  console_errors (evs1 ++ evs2) = console_errors evs1 ++ console_errors evs2.
Proof.
  induction evs1 as [|e evs1 IH]; simpl; [reflexivity|].
  destruct e; simpl; now rewrite ?IH.
Qed.



Lemma retries_console url key body n a :
  console_errors (retries (EvFetch url key body) n a) = [].
Proof. revert a; induction n as [|n IH]; intro a; simpl; auto. Qed.

Lemma retries_exits url key body n a :
  exits (retries (EvFetch url key body) n a) = [].
Proof. revert a; induction n as [|n IH]; intro a; simpl; auto. Qed.

(** ** The retry loop *)

Lemma retryable_not_accepted r : retryable r = true -> accepted r = false.
Proof.
  destruct r as [s|e]; simpl; [|reflexivity]. unfold ok. intro H.
  apply Z.leb_le in H.
  destruct (200 <=? s) eqn:E1, (s <=? 299) eqn:E2, (400 <=? s) eqn:E3,
    (s <? 500) eqn:E4; simpl; try reflexivity; lia.
Qed.


(** [n] retryable failures in a row, with retries left for each: [send]
    goes through the schedule and is at attempt [a + n]. *)
Lemma send_retries payload net n :
  forall fuel a i w,
    (forall j, (j < n)%nat -> retryable (net (i + j)%nat) = true) ->
    a + Z.of_nat n <= maxRetries (client w) ->
    exec_from (send (n + fuel) payload a) net i w =
    exec_from (send fuel payload (a + Z.of_nat n)) net (i + n)%nat
      (log_events (retries (fetch_event (client w) payload) n a) w).
Proof.
  induction n as [|n IH]; intros fuel a i w Hnet Ha.
  - simpl. now rewrite Z.add_0_r, Nat.add_0_r, log_events_nil.
  - cbn [Nat.add]. rewrite exec_send_S. cbv zeta.
    pose proof (Hnet 0%nat ltac:(lia)) as H0. rewrite Nat.add_0_r in H0.
    pose proof (retryable_not_accepted _ H0) as Hacc.
    assert (Hlt : (a <? maxRetries (client w)) = true)
      by (apply Z.ltb_lt; lia).
    assert (Hnext :
      exec_from (send (n + fuel) payload (a + 1)) net (S i)
        (log_event (EvSleep (2 ^ a * 1000))
           (log_event (fetch_event (client w) payload) w)) =
      exec_from (send fuel payload (a + Z.of_nat (S n))) net (i + S n)%nat
        (log_events (retries (fetch_event (client w) payload) (S n) a) w)).
    { rewrite IH.
      - replace (a + 1 + Z.of_nat n) with (a + Z.of_nat (S n)) by lia.
        replace (S i + n)%nat with (i + S n)%nat by lia.
        f_equal. unfold log_events, log_event.
        cbn [client armed next_timeout listeners trace retries].
        now rewrite <- !app_assoc.
      - intros j Hj. replace (S i + j)%nat with (i + S j)%nat by lia.
        apply Hnet. lia.
      - cbn [client log_event]. lia. }
    destruct (net i) as [s|e]; simpl in H0, Hacc.
    + rewrite Hacc, H0, Hlt. simpl. exact Hnext.
    + rewrite Hlt. exact Hnext.
Qed.

(** [send] always ends, with a boolean: it is [true] exactly when the last
    answer was accepted, and on the way it only requests and waits. *)
Lemma send_total payload net fuel :
  forall a i w,
    (Z.to_nat (maxRetries (client w) - a) < fuel)%nat ->
    exists evs i',
      exec_from (send fuel payload a) net i w =
        (log_events evs w, Done (accepted (net (pred i'))), i') /\
      (i < i')%nat /\
      fetches evs = repeat (fetch_event (client w) payload) (i' - i) /\
      console_errors evs = [] /\ exits evs = [].
Proof.
  induction fuel as [|fuel IH]; intros a i w Hfuel; [lia|].
  rewrite exec_send_S. cbv zeta.
  set (w1 := log_event (fetch_event (client w) payload) w).
  assert (Hstop : forall b, b = accepted (net i) ->
    exists evs i',
      (w1, Done b, S i) =
        (log_events evs w, Done (accepted (net (pred i'))), i') /\
      (i < i')%nat /\
      fetches evs = repeat (fetch_event (client w) payload) (i' - i) /\
      console_errors evs = [] /\ exits evs = []).
  { intros b ->. exists [fetch_event (client w) payload], (S i).
    replace (S i - i)%nat with 1%nat by lia.
    split; [reflexivity|]. split; [lia|]. repeat split. }
  assert (Hgo : a < maxRetries (client w) -> accepted (net i) = false ->
    exists evs i',
      exec_from (send fuel payload (a + 1)) net (S i)
        (log_event (EvSleep (2 ^ a * 1000)) w1) =
        (log_events evs w, Done (accepted (net (pred i'))), i') /\
      (i < i')%nat /\
      fetches evs = repeat (fetch_event (client w) payload) (i' - i) /\
      console_errors evs = [] /\ exits evs = []).
  { intros Hlt _.
    destruct (IH (a + 1) (S i) (log_event (EvSleep (2 ^ a * 1000)) w1))
      as (evs & i' & Hrun & Hi & Hf & Hc & He).
    { simpl. lia. }
    exists ([fetch_event (client w) payload; EvSleep (2 ^ a * 1000)] ++ evs), i'.
    rewrite Hrun. unfold w1.
    rewrite !log_event_events, !log_events_app.
    split; [reflexivity|]. split; [lia|].
    rewrite fetches_app, console_errors_app, exits_app, Hf, Hc, He.
    replace (i' - i)%nat with (S (i' - S i)) by lia.
    repeat split. }
  destruct (net i) as [s|e] eqn:Hnet; simpl in Hstop, Hgo.
  - destruct (ok s || ((400 <=? s) && (s <? 500))) eqn:Hacc.
    + apply Hstop. reflexivity.
    + destruct ((500 <=? s) && (a <? maxRetries (client w))) eqn:Hre.
      * apply andb_true_iff in Hre. destruct Hre as [_ Hlt].
        apply Hgo; [now apply Z.ltb_lt|reflexivity].
      * apply Hstop. reflexivity.
  - destruct (a <? maxRetries (client w)) eqn:Hlt.
    + apply Hgo; [now apply Z.ltb_lt|reflexivity].
    + apply Hstop. reflexivity.
Qed.

(** ** The synchronous prefixes of [flush] and [captureLog] *)

Lemma flush_empty w : buffer (client w) = [] -> flush w = (w, Done tt).
Proof.
  intro H. unfold flush, bind, this_. simpl. now rewrite H.
Qed.

Lemma flush_nonempty w :
  buffer (client w) <> [] ->
  flush w =
  bind (send (send_fuel (client w)) (buffer (client w)) 0) report (drained w).
Proof.
  intro H. unfold flush, drained, report.
  destruct w as [c ar nx ls tr]. destruct c as [k u e bs fi mr buf tm].
  simpl in H. destruct buf as [|r buf]; [congruence|].
  destruct tm as [h|]; unfold bind, this_; simpl; [reflexivity|].
  now rewrite app_nil_r.
Qed.

Lemma captureLog_pushed lvl msg md now w :
  captureLog lvl msg md now w =
  let w1 := pushed (record_of (client w) lvl msg md now) w in
  if Z.of_nat (List.length (buffer (client w1))) >=? batchSize (client w1)
  then flush w1
  else match timer (client w1) with
       | None => (timer_armed w1, Done tt)
       | Some _ => (w1, Done tt)
       end.
Proof.
  unfold captureLog, buffer_push, record_of, pushed, timer_armed.
  unfold bind at 1. unfold this_ at 1. cbn [bind_task].
  unfold bind at 1. unfold bind at 1. unfold this_ at 1. cbn [bind_task].
  unfold set_buffer at 1. cbn [bind_task].
  unfold bind at 1. unfold this_ at 1. cbn [bind_task].
  cbv zeta.
  match goal with |- (if ?b then _ else _) _ = _ => destruct b end;
    [reflexivity|].
  destruct w as [c ar nx ls tr]. destruct c as [k u e bs fi mr buf tm].
  destruct tm; reflexivity.
Qed.

Lemma buffer_pushed r w : buffer (client (pushed r w)) = buffer (client w) ++ [r].
Proof. reflexivity. Qed.

Lemma pushed_nonempty r w : buffer (client (pushed r w)) <> [].
Proof. rewrite buffer_pushed. destruct (buffer (client w)); discriminate. Qed.

(** The first attempt of a flush is suspended on its request, with the heap
    drained. *)
Lemma send_first fuel payload a w :
  exists k,
    send (S fuel) payload a w =
    (log_event (fetch_event (client w) payload) w,
     AwaitFetch (mkRequest (ingestUrl (client w)) (apiKey (client w)) payload) k).
Proof.
  cbn [send]. unfold bind, try_catch, this_, fetch. simpl.
  eexists. reflexivity.
Qed.

Lemma flush_suspends w :
  buffer (client w) <> [] ->
  exists k,
    flush w =
    (log_event (fetch_event (client w) (buffer (client w))) (drained w),
     AwaitFetch
       (mkRequest (ingestUrl (client w)) (apiKey (client w))
          (buffer (client w))) k).
Proof.
  intro H. rewrite (flush_nonempty w H). unfold bind, send_fuel.
  destruct (send_first (Z.to_nat (maxRetries (client w))) (buffer (client w))
              0 (drained w)) as [k Hk].
  rewrite Hk. simpl. eexists. reflexivity.
Qed.

(** ** A whole flush, run on its own *)

Lemma exec_flush_nonempty net w :
  buffer (client w) <> [] ->
  exec_from flush net 0 w =
  and_then
    (exec_from (send (send_fuel (client w)) (buffer (client w)) 0) net 0
       (drained w))
    report net.
Proof.
  intro H. unfold exec_from at 1. rewrite (flush_nonempty w H).
  apply (exec_bind (send (send_fuel (client w)) (buffer (client w)) 0)
           report net 0 (drained w)).
Qed.

Lemma exec_report b net i w :
  exec_from (report b) net i w =
  (log_events (if b then [] else [EvConsoleError failed_message]) w,
   Done tt, i).
Proof.
  destruct b; unfold exec_from, report; simpl.
  - now rewrite log_events_nil.
  - reflexivity.
Qed.




(** ** Attempts that end the loop at once *)

Lemma send_accepted fuel payload a net i w :
  accepted (net i) = true ->
  exec_from (send (S fuel) payload a) net i w =
  (log_event (fetch_event (client w) payload) w, Done true, S i).
Proof.
  intro Hacc. rewrite exec_send_S. cbv zeta.
  destruct (net i) as [s|e]; simpl in Hacc; [|discriminate].
  now rewrite Hacc.
Qed.

Lemma send_not_retried fuel payload a net i w s :
  net i = Response s ->
  accepted (net i) = false ->
  s < 500 ->
  exec_from (send (S fuel) payload a) net i w =
  (log_event (fetch_event (client w) payload) w, Done false, S i).
Proof.
  intros Hnet Hacc Hs. rewrite exec_send_S. cbv zeta.
  rewrite Hnet in *. simpl in Hacc. rewrite Hacc.
  assert (H5 : (500 <=? s) = false) by (apply Z.leb_gt; lia).
  now rewrite H5.
Qed.

(** A flush whose first [n] attempts are retried and whose attempt [n] ends
    the loop with [b]. *)
Lemma exec_flush_stops net w n b :
  buffer (client w) <> [] ->
  (forall j, (j < n)%nat -> retryable (net j) = true) ->
  Z.of_nat n <= maxRetries (client w) ->
  (forall fuel w',
      exec_from (send (S fuel) (buffer (client w)) (Z.of_nat n)) net n w' =
      (log_event (fetch_event (client w') (buffer (client w))) w',
       Done b, S n)) ->
  let req := fetch_event (client w) (buffer (client w)) in
  exec flush net w =
  (log_events
     (retries req n 0 ++ req ::
        if b then [] else [EvConsoleError failed_message])
     (drained w),
   Done tt).
Proof.
  intros Hbuf Hre Hn Hlast req.
  unfold exec. rewrite (exec_flush_nonempty net w Hbuf). unfold send_fuel.
  replace (S (Z.to_nat (maxRetries (client w)))) with
    (n + S (Z.to_nat (maxRetries (client w)) - n))%nat by lia.
  rewrite send_retries; [|exact Hre|simpl; lia].
  rewrite Z.add_0_l, Nat.add_0_l, Hlast. unfold and_then.
  rewrite exec_report, log_event_events, !log_events_app.
  reflexivity.
Qed.

Lemma accepted_status s :
  200 <= s <= 299 \/ 400 <= s <= 499 -> accepted (Response s) = true.
Proof.
  intro H. simpl. unfold ok. apply orb_true_iff.
  destruct H as [H|H]; [left|right]; apply andb_true_iff; split;
    try apply Z.leb_le; try apply Z.ltb_lt; lia.
Qed.

Lemma redirect_status s :
  300 <= s <= 399 -> accepted (Response s) = false.
Proof.
  intro H. simpl. unfold ok.
  assert (H1 : (s <=? 299) = false) by (apply Z.leb_gt; lia).
  assert (H2 : (400 <=? s) = false) by (apply Z.leb_gt; lia).
  now rewrite H1, H2, andb_false_r.
Qed.

(** C3. An attempt answered with a 2xx or a 4xx status: [send] returns
    [true] after that one request, with no wait and no further request,
    whatever the attempt number; a flush that meets such an answer at
    attempt [i], after [i] retried failures, ends there without a
    diagnostic, so that a 400 on the first attempt makes one request in
    all. *)
Theorem accepted_response_is_delivered (net : nat -> FetchResult) (i : nat)
    (s : Z) :
  net i = Response s ->
  200 <= s <= 299 \/ 400 <= s <= 499 ->
  (forall fuel payload a w,
      exec_from (send (S fuel) payload a) net i w =
      (log_event (fetch_event (client w) payload) w, Done true, S i)) /\
  (forall w,
      buffer (client w) <> [] ->
      (forall j, (j < i)%nat -> retryable (net j) = true) ->
      Z.of_nat i <= maxRetries (client w) ->
      let req := fetch_event (client w) (buffer (client w)) in
      exec flush net w =
      (log_events (retries req i 0 ++ [req]) (drained w), Done tt)).
Proof.
  intros Hnet Hs.
  assert (Hacc : accepted (net i) = true)
    by (rewrite Hnet; now apply accepted_status).
  split.
  - intros fuel payload a w. now apply send_accepted.
  - intros w Hbuf Hre Hi req.
    apply (exec_flush_stops net w i true Hbuf Hre Hi).
    intros fuel w'. now apply send_accepted.
Qed.

(** A 400 on the first attempt of a default client: one request, no wait,
    no diagnostic. *)
Lemma accepted_response_is_delivered_witness :
  let c := mkClient "k" "u" "production" 50 2000 3
             [mkLogRecord info "a" [] "t"] None in
  let w := mkWorld c [] 0%nat [] [] in
  exec flush (fun _ => Response 400) w =
    (log_events [fetch_event c (buffer c)] (drained w), Done tt).
Proof.
  intros c w.
  apply (proj2 (accepted_response_is_delivered (fun _ => Response 400) 0 400
                  eq_refl ltac:(lia)) w).
  - simpl. discriminate.
  - intros j Hj. lia.
  - simpl. lia.
Defined.

(** C10. An attempt answered with a 3xx status: [send] returns [false]
    after that one request, with no wait and no further request, whatever
    the attempt number and the retries left; the flush that meets it at
    attempt [i] then writes the failure line with [console.error]. *)
Theorem redirect_response_is_abandoned (net : nat -> FetchResult) (i : nat)
    (s : Z) :
  net i = Response s ->
  300 <= s <= 399 ->
  (forall fuel payload a w,
      exec_from (send (S fuel) payload a) net i w =
      (log_event (fetch_event (client w) payload) w, Done false, S i)) /\
  (forall w,
      buffer (client w) <> [] ->
      (forall j, (j < i)%nat -> retryable (net j) = true) ->
      Z.of_nat i <= maxRetries (client w) ->
      let req := fetch_event (client w) (buffer (client w)) in
      exec flush net w =
      (log_events
         (retries req i 0 ++ [req; EvConsoleError failed_message])
         (drained w),
       Done tt)).
Proof.
  intros Hnet Hs.
  assert (Hacc : accepted (net i) = false)
    by (rewrite Hnet; now apply redirect_status).
  split.
  - intros fuel payload a w.
    apply (send_not_retried fuel payload a net i w s Hnet Hacc). lia.
  - intros w Hbuf Hre Hi req.
    apply (exec_flush_stops net w i false Hbuf Hre Hi).
    intros fuel w'.
    apply (send_not_retried fuel _ _ net i w' s Hnet Hacc). lia.
Qed.

(** A 304 on the first attempt of a default client, with all three retries
    left: one request, then the failure line. *)
Lemma redirect_response_is_abandoned_witness :
  let c := mkClient "k" "u" "production" 50 2000 3
             [mkLogRecord info "a" [] "t"] None in
  let w := mkWorld c [] 0%nat [] [] in
  exec flush (fun _ => Response 304) w =
    (log_events
       [fetch_event c (buffer c); EvConsoleError failed_message]
       (drained w),
     Done tt).
Proof.
  intros c w.
  apply (proj2 (redirect_response_is_abandoned (fun _ => Response 304) 0 304
                  eq_refl ltac:(lia)) w).
  - simpl. discriminate.
  - intros j Hj. lia.
  - simpl. lia.
Defined.

(** A flush of a non-empty buffer, run on its own against any network, ends
    normally: it requests and waits, and writes the failure line exactly
    when the last answer was not accepted. *)
Lemma exec_flush_total net w :
  buffer (client w) <> [] ->
  exists evs i',
    exec_from flush net 0 w =
      (log_events
         (evs ++ if accepted (net (pred i')) then []
                 else [EvConsoleError failed_message])
         (drained w),
       Done tt, i') /\
    (0 < i')%nat /\
    fetches evs = repeat (fetch_event (client w) (buffer (client w))) i' /\
    console_errors evs = [] /\ exits evs = [].
Proof.
  intro Hbuf. rewrite (exec_flush_nonempty net w Hbuf).
  destruct (send_total (buffer (client w)) net (send_fuel (client w)) 0 0%nat
              (drained w)) as (evs & i' & Hrun & Hi & Hf & Hc & He).
  { unfold send_fuel. simpl. rewrite Z.sub_0_r. lia. }
  exists evs, i'. rewrite Hrun. unfold and_then.
  rewrite exec_report, log_events_app.
  rewrite Nat.sub_0_r in Hf. repeat split; auto.
Qed.

(** ** Draining *)

(** C5. [flush] on an empty buffer returns at once and leaves the heap,
    trace included, as it was. On a non-empty buffer it is suspended for the
    first time on the request that carries the whole buffer, and the heap
    at that suspension already has the buffer empty; a second [flush], right
    then or after the first has run to its end, is the no-op. *)
Theorem flush_drains_once (w : World) :
  (buffer (client w) = [] -> flush w = (w, Done tt)) /\
  (buffer (client w) <> [] ->
   let c := client w in
   let w1 := log_event (fetch_event c (buffer c)) (drained w) in
   exists k,
     flush w =
       (w1, AwaitFetch (mkRequest (ingestUrl c) (apiKey c) (buffer c)) k) /\
     buffer (client w1) = [] /\
     flush w1 = (w1, Done tt) /\
     forall net,
       let w2 := fst (exec flush net w) in
       buffer (client w2) = [] /\ flush w2 = (w2, Done tt)).
Proof.
  split; [apply flush_empty|].
  intros Hbuf c w1.
  destruct (flush_suspends w Hbuf) as [k Hk].
  exists k. split; [exact Hk|]. split; [reflexivity|].
  split; [now apply flush_empty|].
  intros net w2.
  destruct (exec_flush_total net w Hbuf) as (evs & i' & Hrun & _).
  assert (Hw2 : buffer (client w2) = []).
  { unfold w2, exec. rewrite Hrun. reflexivity. }
  split; [exact Hw2|now apply flush_empty].
Qed.

(** Two flushes in a row over one buffered record: the first is suspended
    on the request for that record, the second returns at once. *)
Lemma flush_drains_once_witness :
  let r := mkLogRecord info "a" [] "t" in
  let c := mkClient "k" "u" "production" 50 2000 3 [r] (Some 0%nat) in
  let w := mkWorld c [0%nat] 1%nat [] [] in
  let w1 := log_event (fetch_event c [r]) (drained w) in
  exists k,
    flush w = (w1, AwaitFetch (mkRequest "u" "k" [r]) k) /\
    buffer (client w1) = [] /\
    flush w1 = (w1, Done tt) /\
    forall net,
      let w2 := fst (exec flush net w) in
      buffer (client w2) = [] /\ flush w2 = (w2, Done tt).
Proof.
  intros r c w w1.
  apply (proj2 (flush_drains_once w)). simpl. discriminate.
Defined.

(** ** The threshold trigger *)

Lemma armed_drained w :
  armed w = timers_of (timer (client w)) -> armed (drained w) = [].
Proof.
  unfold drained. simpl. intro H. destruct (timer (client w)) as [h|].
  - rewrite H. simpl. now rewrite Nat.eqb_refl.
  - rewrite H. reflexivity.
Qed.

(** C2. A [captureLog] call that brings the buffer to the batch size or
    beyond starts the flush within the call: when the call gives control
    back it is suspended on the request whose body is the buffer as it was
    followed by the new record, the buffer is empty, a timer that was
    pending has been cleared and none is armed. A call that stays below the
    batch size only appends its record at the tail. *)
Theorem threshold_flushes_at_once (w : World) (lvl : Level) (msg : string)
    (md : JsObject) (now : string) :
  armed w = timers_of (timer (client w)) ->
  let c := client w in
  let r := record_of c lvl msg md now in
  let batch := buffer c ++ [r] in
  (Z.of_nat (List.length batch) >= batchSize c ->
   exists k w1,
     captureLog lvl msg md now w =
       (w1, AwaitFetch (mkRequest (ingestUrl c) (apiKey c) batch) k) /\
     buffer (client w1) = [] /\
     timer (client w1) = None /\
     armed w1 = [] /\
     trace w1 =
       trace w ++
       match timer c with Some h => [EvClearTimeout h] | None => [] end ++
       [EvFetch (ingestUrl c) (apiKey c) batch]) /\
  (Z.of_nat (List.length batch) < batchSize c ->
   exists w1,
     captureLog lvl msg md now w = (w1, Done tt) /\
     buffer (client w1) = batch /\
     fetches (trace w1) = fetches (trace w)).
Proof.
  intros Harmed c r batch.
  rewrite captureLog_pushed. cbv zeta. fold c. fold r.
  rewrite buffer_pushed. fold c. fold batch.
  change (batchSize (client (pushed r w))) with (batchSize c).
  split; intro Hlen.
  - assert (Hge : (Z.of_nat (List.length batch) >=? batchSize c) = true)
      by (apply Z.geb_le; lia).
    rewrite Hge.
    destruct (flush_suspends (pushed r w) (pushed_nonempty r w)) as [k Hk].
    exists k. eexists. split; [exact Hk|].
    split; [reflexivity|]. split; [reflexivity|].
    split.
    + apply (armed_drained (pushed r w)). exact Harmed.
    + simpl. fold c. now rewrite <- app_assoc.
  - assert (Hge : (Z.of_nat (List.length batch) >=? batchSize c) = false).
    { rewrite Z.geb_leb. apply Z.leb_gt. lia. }
    rewrite Hge.
    change (timer (client (pushed r w))) with (timer c).
    destruct (timer c) as [h|].
    + eexists. split; [reflexivity|]. split; reflexivity.
    + eexists. split; [reflexivity|]. split; [reflexivity|].
      simpl. rewrite fetches_app. simpl. now rewrite app_nil_r.
Qed.

(** A client with [batchSize = 2], one record buffered and its timer armed:
    the second [captureLog] is suspended on the request for both records,
    with the timer cleared. *)
Lemma threshold_flushes_at_once_witness :
  let ra := mkLogRecord info "a" [("sdk_env", JString "production")] "t1" in
  let rb := mkLogRecord info "b" [("sdk_env", JString "production")] "t2" in
  let c := mkClient "k" "u" "production" 2 2000 3 [ra] (Some 0%nat) in
  let w := mkWorld c [0%nat] 1%nat [] [EvSetTimeout 0%nat 2000] in
  exists k w1,
    captureLog info "b" [] "t2" w =
      (w1, AwaitFetch (mkRequest "u" "k" [ra; rb]) k) /\
    buffer (client w1) = [] /\
    timer (client w1) = None /\
    armed w1 = [] /\
    trace w1 =
      [EvSetTimeout 0%nat 2000; EvClearTimeout 0%nat; EvFetch "u" "k" [ra; rb]].
Proof.
  intros ra rb c w.
  apply (proj1 (threshold_flushes_at_once w info "b" [] "t2" eq_refl)).
  simpl. lia.
Defined.

(** ** Invariance under the event loop *)

Section Invariance.
Variable cfg : string * string * string * Z * Z * Z.

Let I := Inv cfg.

Lemma Inv_log_events evs w : I w -> I (log_events evs w).
Proof. intro H. exact H. Qed.

Lemma Inv_maxRetries w : I w -> maxRetries (client w) = snd cfg.
Proof. intros [H _]. rewrite <- H. reflexivity. Qed.

Lemma task_inv_bind {A B} (Q : A -> Prop) (Q' : B -> Prop) throws
    (f : A -> M B) (t : Task A) :
  (forall a, Q a -> m_inv I Q' throws (f a)) ->
  task_inv I Q throws t ->
  forall w, I w ->
    let (w', t') := bind_task t f w in I w' /\ task_inv I Q' throws t'.
Proof.
  intro Hf.
  induction t as [a|e|c| |req k IH|ms k IH] using Task_induction;
    intros Ht w Hw; simpl in *.
  - apply (Hf a Ht w Hw).
  - split; assumption.
  - split; [assumption|exact Logic.I].
  - split; assumption.
  - split; [assumption|]. intros r w' Hw'.
    specialize (Ht r w' Hw'). specialize (IH r w').
    destruct (k r w') as [w'' t']. simpl in IH. destruct Ht as [Hw'' Ht'].
    apply (IH Ht' w'' Hw'').
  - split; [assumption|]. intros w' Hw'.
    specialize (Ht w' Hw'). specialize (IH w').
    destruct (k w') as [w'' t']. simpl in IH. destruct Ht as [Hw'' Ht'].
    apply (IH Ht' w'' Hw'').
Qed.

Lemma m_inv_bind {A B} (Q : A -> Prop) (Q' : B -> Prop) throws
    (m : M A) (f : A -> M B) :
  m_inv I Q throws m ->
  (forall a, Q a -> m_inv I Q' throws (f a)) ->
  m_inv I Q' throws (bind m f).
Proof.
  intros Hm Hf w Hw. unfold bind. specialize (Hm w Hw).
  destruct (m w) as [w' t]. destruct Hm as [Hw' Ht].
  apply (task_inv_bind Q Q' throws f t Hf Ht w' Hw').
Qed.

Lemma task_inv_catch {A} (Q : A -> Prop) throws (h : string -> M A)
    (t : Task A) :
  (forall e, m_inv I Q throws (h e)) ->
  task_inv I Q true t ->
  forall w, I w ->
    let (w', t') := catch_task t h w in I w' /\ task_inv I Q throws t'.
Proof.
  intro Hh.
  induction t as [a|e|c| |req k IH|ms k IH] using Task_induction;
    intros Ht w Hw; simpl in *.
  - split; assumption.
  - apply (Hh e w Hw).
  - split; [assumption|exact Logic.I].
  - split; assumption.
  - split; [assumption|]. intros r w' Hw'.
    specialize (Ht r w' Hw'). specialize (IH r w').
    destruct (k r w') as [w'' t']. simpl in IH. destruct Ht as [Hw'' Ht'].
    apply (IH Ht' w'' Hw'').
  - split; [assumption|]. intros w' Hw'.
    specialize (Ht w' Hw'). specialize (IH w').
    destruct (k w') as [w'' t']. simpl in IH. destruct Ht as [Hw'' Ht'].
    apply (IH Ht' w'' Hw'').
Qed.

Lemma m_inv_try_catch {A} (Q : A -> Prop) throws (body : M A)
    (h : string -> M A) :
  m_inv I Q true body ->
  (forall e, m_inv I Q throws (h e)) ->
  m_inv I Q throws (try_catch body h).
Proof.
  intros Hb Hh w Hw. unfold try_catch. specialize (Hb w Hw).
  destruct (body w) as [w' t]. destruct Hb as [Hw' Ht].
  apply (task_inv_catch Q throws h t Hh Ht w' Hw').
Qed.

Lemma m_inv_ret {A} (Q : A -> Prop) throws (a : A) :
  Q a -> m_inv I Q throws (ret a).
Proof. intros Ha w Hw. simpl. split; assumption. Qed.

Lemma m_inv_this throws :
  m_inv I (fun c => maxRetries c = snd cfg) throws this_.
Proof.
  intros w Hw. simpl. split; [assumption|now apply Inv_maxRetries].
Qed.

Lemma m_inv_fetch url key body :
  m_inv I (fun _ => True) true (fetch url key body).
Proof.
  intros w Hw. simpl. split; [exact Hw|].
  intros [s|e] w' Hw'; simpl; split; auto.
Qed.

Lemma m_inv_sleep throws ms : m_inv I (fun _ => True) throws (sleep ms).
Proof.
  intros w Hw. simpl. split; [exact Hw|].
  intros w' Hw'. split; auto.
Qed.

Lemma m_inv_console_error throws msg :
  m_inv I (fun _ => True) throws (console_error msg).
Proof. intros w Hw. simpl. split; [exact Hw|exact Logic.I]. Qed.

Lemma m_inv_process_exit {A} (Q : A -> Prop) throws code :
  m_inv I Q throws (process_exit code).
Proof. intros w Hw. simpl. split; [exact Hw|exact Logic.I]. Qed.

Lemma m_inv_report throws b : m_inv I (fun _ => True) throws (report b).
Proof.
  destruct b; unfold report; simpl.
  - now apply m_inv_ret.
  - apply m_inv_console_error.
Qed.

(** The [if] that decides between a retry and giving up. *)
Lemma m_inv_retry_or_stop throws (go : bool) a :
  (go = true -> a < snd cfg) ->
  m_inv I (completes_for (snd cfg) a) throws
    (if go then sleep (2 ^ a * 1000) ;; ret (ReturnSend (a + 1))
     else ret (Return false)).
Proof.
  intro Hgo. destruct go.
  - apply (m_inv_bind (fun _ => True)); [apply m_inv_sleep|].
    intros _ _. apply m_inv_ret. simpl. split; [reflexivity|now apply Hgo].
  - apply m_inv_ret. exact Logic.I.
Qed.

(** [send] with fuel for the retries that are left never lacks fuel, never
    throws and keeps the invariant. *)
Lemma m_inv_send payload fuel :
  forall a,
    (Z.to_nat (snd cfg - a) < fuel)%nat ->
    m_inv I (fun _ => True) false (send fuel payload a).
Proof.
  induction fuel as [|fuel IH]; intros a Hfuel; [lia|].
  cbn [send].
  apply (m_inv_bind (completes_for (snd cfg) a)).
  - apply m_inv_try_catch.
    + apply (m_inv_bind (fun c => maxRetries c = snd cfg));
        [apply m_inv_this|].
      intros this _.
      apply (m_inv_bind (fun _ => True)); [apply m_inv_fetch|].
      intros status _.
      destruct (ok status || ((400 <=? status) && (status <? 500))).
      * apply m_inv_ret. exact Logic.I.
      * apply (m_inv_bind (fun c => maxRetries c = snd cfg));
          [apply m_inv_this|].
        intros this' Hthis. apply m_inv_retry_or_stop.
        intro H. apply andb_true_iff in H. destruct H as [_ H].
        apply Z.ltb_lt in H. now rewrite <- Hthis.
    + intro e.
      apply (m_inv_bind (fun c => maxRetries c = snd cfg));
        [apply m_inv_this|].
      intros this Hthis. apply m_inv_retry_or_stop.
      intro H. apply Z.ltb_lt in H. now rewrite <- Hthis.
  - intros [b|a'] Hc; simpl in Hc.
    + now apply m_inv_ret.
    + destruct Hc as [-> Hlt]. apply IH. lia.
Qed.

Lemma Inv_drained w :
  config (client w) = cfg ->
  (forall h, In h (armed w) -> timer (client w) = Some h) ->
  NoDup (armed w) ->
  I (drained w).
Proof.
  intros Hcfg Harmed Hnd. unfold I, Inv, drained. simpl.
  split; [exact Hcfg|]. split; [|congruence].
  destruct (timer (client w)) as [h|] eqn:Ht.
  - destruct (armed w) as [|h1 ar]; [reflexivity|].
    pose proof (Harmed h1 (or_introl eq_refl)) as H1.
    injection H1 as ->.
    destruct ar as [|h2 ar].
    + simpl. now rewrite Nat.eqb_refl.
    + pose proof (Harmed h2 (or_intror (or_introl eq_refl))) as H2.
      injection H2 as ->. inversion Hnd as [|? ? Hnotin _].
      exfalso. apply Hnotin. now left.
  - destruct (armed w) as [|h1 ar]; [reflexivity|].
    specialize (Harmed h1 (or_introl eq_refl)). discriminate.
Qed.

(** [flush] from a heap whose armed timers are at most the one the handle
    names: this covers the heap between turns and the heap of a turn in
    which that timer has just fired. *)
Lemma flush_inv_from w :
  config (client w) = cfg ->
  (forall h, In h (armed w) -> timer (client w) = Some h) ->
  NoDup (armed w) ->
  (buffer (client w) = [] -> I w) ->
  let (w', t) := flush w in
  I w' /\ task_inv I (fun _ => True) false t.
Proof.
  intros Hcfg Harmed Hnd Hempty.
  destruct (buffer (client w)) as [|r buf] eqn:Hbuf.
  - rewrite (flush_empty w Hbuf). split; [now apply Hempty|exact Logic.I].
  - assert (Hne : buffer (client w) <> []) by (rewrite Hbuf; discriminate).
    rewrite (flush_nonempty w Hne).
    apply (m_inv_bind (fun _ => True) (fun _ => True) false
             (send (send_fuel (client w)) (buffer (client w)) 0) report).
    + apply m_inv_send. unfold send_fuel.
      replace (maxRetries (client w)) with (snd cfg)
        by (rewrite <- Hcfg; reflexivity).
      rewrite Z.sub_0_r. lia.
    + intros b _. apply m_inv_report.
    + now apply Inv_drained.
Qed.

Lemma m_inv_flush : m_inv I (fun _ => True) false flush.
Proof.
  intros w Hw. pose proof Hw as (Hcfg & Harmed & Hbuf).
  apply flush_inv_from; auto.
  - intros h Hh. rewrite Harmed in Hh.
    destruct (timer (client w)) as [h'|]; simpl in Hh; [|tauto].
    destruct Hh as [->|[]]. reflexivity.
  - rewrite Harmed. destruct (timer (client w)); repeat constructor.
    intros [].
Qed.

Lemma Inv_pushed r w : I w -> I (pushed r w).
Proof.
  intros (Hcfg & Harmed & Hbuf). unfold I, Inv, pushed. simpl.
  repeat split; auto.
  intros _. destruct (buffer (client w)); discriminate.
Qed.

Lemma m_inv_captureLog lvl msg md now :
  m_inv I (fun _ => True) false (captureLog lvl msg md now).
Proof.
  intros w Hw. rewrite captureLog_pushed. cbv zeta.
  set (w1 := pushed (record_of (client w) lvl msg md now) w).
  assert (Hw1 : I w1) by now apply Inv_pushed.
  destruct (Z.of_nat (List.length (buffer (client w1))) >=?
            batchSize (client w1)).
  - apply (m_inv_flush w1 Hw1).
  - destruct (timer (client w1)) as [h|] eqn:Ht.
    + split; [exact Hw1|exact Logic.I].
    + split; [|exact Logic.I].
      destruct Hw1 as (Hcfg & Harmed & Hbuf).
      unfold I, Inv, timer_armed. cbn [client armed timer buffer].
      rewrite Harmed, Ht.
      split; [exact Hcfg|]. split; [reflexivity|].
      intros _. apply pushed_nonempty.
Qed.

Lemma m_inv_on_uncaughtException e now :
  m_inv I (fun _ => True) false (on_uncaughtException e now).
Proof.
  unfold on_uncaughtException.
  apply (m_inv_bind (fun _ => True)); [apply m_inv_console_error|].
  intros _ _.
  apply (m_inv_bind (fun _ => True)); [apply m_inv_captureLog|].
  intros _ _.
  apply (m_inv_bind (fun _ => True)); [apply m_inv_flush|].
  intros _ _. apply m_inv_process_exit.
Qed.

Lemma m_inv_on_unhandledRejection r now :
  m_inv I (fun _ => True) false (on_unhandledRejection r now).
Proof. unfold on_unhandledRejection. apply m_inv_captureLog. Qed.

Lemma m_inv_autoCaptureErrors :
  m_inv I (fun _ => True) false autoCaptureErrors.
Proof. intros w Hw. simpl. split; [exact Hw|exact Logic.I]. Qed.

Lemma SysInv_spawn m s :
  m_inv I (fun _ => True) false m -> SysInv cfg s -> SysInv cfg (spawn m s).
Proof.
  intros Hm [Hw Hp]. unfold spawn. specialize (Hm (world s) Hw).
  destruct (m (world s)) as [w' t]. destruct Hm as [Hw' Ht].
  split; [exact Hw'|]. simpl. now constructor.
Qed.

(** Every turn of the event loop keeps the invariant. *)
Lemma SysInv_step s s' : step s s' -> SysInv cfg s -> SysInv cfg s'.
Proof.
  intros Hstep Hs. destruct Hstep.
  - apply SysInv_spawn; [apply m_inv_captureLog|exact Hs].
  - apply SysInv_spawn; [apply m_inv_autoCaptureErrors|exact Hs].
- apply SysInv_spawn; [apply m_inv_flush|exact Hs].
  - destruct Hs as [Hw Hp]. pose proof Hw as (Hcfg & Harmed & Hbuf).
    unfold spawn. cbn [world pending].
    rewrite Harmed in H.
    destruct (timer (client (world s))) as [h'|] eqn:Ht;
      simpl in H; [|tauto].
    destruct H as [->|[]].
    assert (Hfire : armed (fire h (world s)) = []).
    { unfold fire. simpl. rewrite Harmed. simpl.
      now rewrite Nat.eqb_refl. }
    pose proof (flush_inv_from (fire h (world s))) as Hflush.
    destruct (flush (fire h (world s))) as [w' t].
    destruct Hflush as [Hw' Ht'].
    + exact Hcfg.
    + rewrite Hfire. intros ? [].
    + rewrite Hfire. constructor.
    + intro Hempty. exfalso. apply Hbuf; [|exact Hempty].
      discriminate.
    + split; [exact Hw'|]. simpl. now constructor.
  - apply SysInv_spawn; [apply m_inv_on_uncaughtException|exact Hs].
  - apply SysInv_spawn; [apply m_inv_on_unhandledRejection|exact Hs].
  - destruct Hs as [Hw Hp]. rewrite H in Hp.
    apply Forall_app in Hp. destruct Hp as [Hp1 Hp2].
    inversion Hp2 as [|? ? Hk Hp2']; subst.
    simpl in Hk. specialize (Hk r (world s) Hw).
    destruct (k r (world s)) as [w' t']. destruct Hk as [Hw' Ht'].
    split; [exact Hw'|]. simpl. apply Forall_app. split; auto.
  - destruct Hs as [Hw Hp]. rewrite H in Hp.
    apply Forall_app in Hp. destruct Hp as [Hp1 Hp2].
    inversion Hp2 as [|? ? Hk Hp2']; subst.
    simpl in Hk. specialize (Hk (world s) Hw).
    destruct (k (world s)) as [w' t']. destruct Hk as [Hw' Ht'].
    split; [exact Hw'|]. simpl. apply Forall_app. split; auto.
Qed.
End Invariance.

Lemma boot_instance opts w :
  boot opts = Some w ->
  exists c,
    new_HorizonClient opts = Instance c /\ w = mkWorld c [] 0%nat [] [].
Proof.
  unfold boot. destruct (new_HorizonClient opts) as [c|msg]; [|discriminate].
  intro H. injection H as <-. now exists c.
Qed.

Lemma new_instance_fresh opts c :
  new_HorizonClient opts = Instance c -> buffer c = [] /\ timer c = None.
Proof.
  unfold new_HorizonClient.
  destruct (falsy_string (opt_apiKey opts)); [discriminate|].
  intro H. injection H as <-. split; reflexivity.
Qed.

(** Every state that a process reaches from a client constructed as [c]
    satisfies the invariant for the configuration of [c]. *)
Lemma reachable_SysInv opts c s :
  new_HorizonClient opts = Instance c ->
  reachable opts s ->
  SysInv (config c) s.
Proof.
  intros Hnew Hreach. induction Hreach as [w Hboot|s s' _ IH Hstep].
  - destruct (boot_instance opts w Hboot) as (c' & Hc' & ->).
    rewrite Hnew in Hc'. injection Hc' as <-.
    destruct (new_instance_fresh opts c Hnew) as [Hb Ht].
    split; [|constructor]. simpl. unfold Inv. simpl. rewrite Ht.
    repeat split; auto.
  - now apply (SysInv_step (config c) s s').
Qed.

Lemma reachable_instance opts s :
  reachable opts s -> exists c, new_HorizonClient opts = Instance c.
Proof.
  induction 1 as [w Hboot|s s' _ IH _]; [|exact IH].
  destruct (boot_instance opts w Hboot) as (c & Hc & _). now exists c.
Qed.

Lemma reachable_Inv opts s :
  reachable opts s ->
  exists c,
    new_HorizonClient opts = Instance c /\ SysInv (config c) s.
Proof.
  intro Hreach. destruct (reachable_instance opts s Hreach) as [c Hc].
  exists c. split; [exact Hc|]. now apply (reachable_SysInv opts c s).
Qed.

(** ** The single flush timer *)

(** C6. In every state that a process reaches, at most one flush timer is
    armed, and it is armed exactly when [this.timer] holds its handle. A
    [captureLog] call leaves a timer armed that was not armed before only if
    no timer was armed and the buffer stayed below the batch size; a flush
    of a non-empty buffer has cleared and forgotten the timer when it is
    suspended on its first request. *)
Theorem at_most_one_flush_timer (opts : HorizonClientOptions) (s : System) :
  reachable opts s ->
  let w := world s in
  let c := client w in
  (List.length (armed w) <= 1)%nat /\
  (forall h, timer c = Some h <-> In h (armed w)) /\
  (forall lvl msg md now h,
      let w1 := fst (captureLog lvl msg md now w) in
      In h (armed w1) -> ~ In h (armed w) ->
      timer c = None /\ armed w = [] /\
      Z.of_nat (List.length (buffer c ++ [record_of c lvl msg md now]))
        < batchSize c) /\
  (buffer c <> [] ->
   exists k w1,
     flush w =
       (w1, AwaitFetch (mkRequest (ingestUrl c) (apiKey c) (buffer c)) k) /\
     timer (client w1) = None /\ armed w1 = [] /\
     trace w1 =
       trace w ++
       match timer c with Some h => [EvClearTimeout h] | None => [] end ++
       [EvFetch (ingestUrl c) (apiKey c) (buffer c)]).
Proof.
  intros Hreach w c.
  destruct (reachable_Inv opts s Hreach) as (c0 & _ & [Hinv _]).
  fold w in Hinv. destruct Hinv as (_ & Harmed & _). fold c in Harmed.
  split; [|split; [|split]].
  - rewrite Harmed. destruct (timer c); simpl; lia.
  - intro h. rewrite Harmed. destruct (timer c) as [h'|]; simpl.
    + split; [intro H; injection H as ->; now left|].
      intros [->|[]]. reflexivity.
    + split; [discriminate|tauto].
  - intros lvl msg md now h w1 Hin Hnot. unfold w1 in Hin.
    rewrite captureLog_pushed in Hin. cbv zeta in Hin. fold c in Hin.
    set (r := record_of c lvl msg md now) in *.
    rewrite buffer_pushed in Hin. fold c in Hin.
    change (batchSize (client (pushed r w))) with (batchSize c) in Hin.
    change (timer (client (pushed r w))) with (timer c) in Hin.
    destruct (Z.of_nat (List.length (buffer c ++ [r])) >=? batchSize c)
      eqn:Hge.
    + exfalso.
      destruct (flush_suspends (pushed r w) (pushed_nonempty r w)) as [k Hk].
      rewrite Hk in Hin. cbn [fst] in Hin.
      change (armed (log_event
                (fetch_event (client (pushed r w)) (buffer (client (pushed r w))))
                (drained (pushed r w))))
        with (armed (drained (pushed r w))) in Hin.
      rewrite (armed_drained (pushed r w) Harmed) in Hin. exact Hin.
    + rewrite Z.geb_leb in Hge. apply Z.leb_gt in Hge.
      destruct (timer c) as [h'|] eqn:Ht.
      * exfalso. apply Hnot. exact Hin.
      * repeat split; auto.
  - intro Hbuf.
    destruct (flush_suspends w Hbuf) as [k Hk].
    exists k. eexists. split; [exact Hk|].
    split; [reflexivity|]. split; [now apply armed_drained|].
    simpl. fold c. now rewrite <- app_assoc.
Qed.

(** The state after the first [captureLog] of a default client: its timer,
    number 0, is the one armed timer. *)
Lemma at_most_one_flush_timer_witness :
  let opts := mkOptions (Some "key") None None None None None in
  let w0 := mkWorld (mkClient "key" "https://horizon-api.bylinee.com/v1/ingest"
                       "production" 50 2000 3 [] None) [] 0%nat [] [] in
  let s := spawn (captureLog info "a" [] "t") (mkSystem w0 []) in
  armed (world s) = [0%nat] /\
  (List.length (armed (world s)) <= 1)%nat /\
  (forall h, timer (client (world s)) = Some h <-> In h (armed (world s))).
Proof.
  intros opts w0 s.
  assert (Hreach : reachable opts s).
  { apply (reach_step opts (mkSystem w0 [])).
    - apply reach_boot. reflexivity.
    - apply step_captureLog. }
  pose proof (at_most_one_flush_timer opts s Hreach) as (H1 & H2 & _).
  split; [reflexivity|]. split; [exact H1|exact H2].
Defined.

(** ** Construction *)

Lemma falsy_api_key opts :
  opt_apiKey opts = None \/ opt_apiKey opts = Some "" ->
  falsy_string (opt_apiKey opts) = true.
Proof. intros [-> | ->]; reflexivity. Qed.

Lemma truthy_api_key opts key :
  opt_apiKey opts = Some key -> key <> "" ->
  falsy_string (opt_apiKey opts) = false /\
  or_string (opt_apiKey opts) "" = key.
Proof.
  intros -> Hkey. simpl.
  destruct (String.eqb_spec key ""); [contradiction|]. split; reflexivity.
Qed.

(** C7. [new HorizonClient(opts)] with the API key missing or empty throws
    ['Horizon API Key is required'] out of the constructor: there is no
    instance, no heap to run on and so no state of the process in which
    anything was requested. With a non-empty key it gives an instance that
    holds the key, an empty buffer and no timer, and whose six configuration
    fields are the same in every state the process reaches. *)
Theorem construction_requires_api_key (opts : HorizonClientOptions) :
  (opt_apiKey opts = None \/ opt_apiKey opts = Some "" ->
   new_HorizonClient opts = ThrowsError "Horizon API Key is required" /\
   boot opts = None /\
   forall s, ~ reachable opts s) /\
  (forall key,
      opt_apiKey opts = Some key -> key <> "" ->
      exists c,
        new_HorizonClient opts = Instance c /\
        apiKey c = key /\ buffer c = [] /\ timer c = None /\
        boot opts = Some (mkWorld c [] 0%nat [] []) /\
        forall s, reachable opts s -> config (client (world s)) = config c).
Proof.
  split.
  - intro Hkey. apply falsy_api_key in Hkey.
    assert (Hnew :
      new_HorizonClient opts = ThrowsError "Horizon API Key is required").
    { unfold new_HorizonClient. now rewrite Hkey. }
    split; [exact Hnew|]. split.
    + unfold boot. now rewrite Hnew.
    + intros s Hreach.
      destruct (reachable_instance opts s Hreach) as [c Hc]. congruence.
  - intros key Hopt Hkey.
    destruct (truthy_api_key opts key Hopt Hkey) as [Hf Hor].
    assert (Hnew : exists c, new_HorizonClient opts = Instance c /\
                             apiKey c = key).
    { unfold new_HorizonClient. rewrite Hf, Hor. eexists.
      split; reflexivity. }
    destruct Hnew as (c & Hnew & Hapi).
    destruct (new_instance_fresh opts c Hnew) as [Hb Ht].
    exists c. repeat split; auto.
    + unfold boot. now rewrite Hnew.
    + intros s Hreach.
      destruct (reachable_SysInv opts c s Hnew Hreach) as [[Hcfg _] _].
      exact Hcfg.
Qed.

(** [apiKey: ''] throws; [apiKey: 'key'] gives the default client. *)
Lemma construction_requires_api_key_witness :
  new_HorizonClient (mkOptions (Some "") None None None None None) =
    ThrowsError "Horizon API Key is required" /\
  exists c,
    new_HorizonClient (mkOptions (Some "key") None None None None None) =
      Instance c /\
    apiKey c = "key" /\ batchSize c = 50 /\ flushInterval c = 2000 /\
    maxRetries c = 3.
Proof.
  split.
  - apply (proj1 (construction_requires_api_key
                    (mkOptions (Some "") None None None None None))).
    right. reflexivity.
  - destruct (proj2 (construction_requires_api_key
                       (mkOptions (Some "key") None None None None None))
                "key" eq_refl ltac:(discriminate))
      as (c & Hnew & Hkey & _).
    exists c. split; [exact Hnew|]. split; [exact Hkey|].
    simpl in Hnew. injection Hnew as <-. repeat split.
Defined.

(** ** A whole [captureLog], run on its own *)

Lemma captureLog_kept lvl msg md now w :
  let r := record_of (client w) lvl msg md now in
  captureLog lvl msg md now w =
  if Z.of_nat (List.length (buffer (client w) ++ [r])) >=? batchSize (client w)
  then flush (pushed r w)
  else (kept r w, Done tt).
Proof.
  intro r. rewrite captureLog_pushed. cbv zeta. fold r.
  rewrite buffer_pushed. unfold kept.
  change (batchSize (client (pushed r w))) with (batchSize (client w)).
  change (timer (client (pushed r w))) with (timer (client w)).
  destruct (timer (client w)); reflexivity.
Qed.

Lemma exec_captureLog lvl msg md now net w :
  let r := record_of (client w) lvl msg md now in
  exec_from (captureLog lvl msg md now) net 0 w =
  if Z.of_nat (List.length (buffer (client w) ++ [r])) >=? batchSize (client w)
  then exec_from flush net 0 (pushed r w)
  else (kept r w, Done tt, 0%nat).
Proof.
  intro r. unfold exec_from at 1. rewrite captureLog_kept. cbv zeta. fold r.
  destruct (Z.of_nat (List.length (buffer (client w) ++ [r])) >=?
            batchSize (client w)); reflexivity.
Qed.

Lemma kept_nonempty r w : buffer (client (kept r w)) <> [].
Proof.
  unfold kept. destruct (timer (client w)); simpl;
    destruct (buffer (client w)); discriminate.
Qed.

Lemma kept_buffer r w : buffer (client (kept r w)) = buffer (client w) ++ [r].
Proof. unfold kept. destruct (timer (client w)); reflexivity. Qed.



(** [captureLog], run on its own against any network, ends normally. *)
Lemma exec_captureLog_total lvl msg md now net w :
  exists w' i, exec_from (captureLog lvl msg md now) net 0 w = (w', Done tt, i).
Proof.
  rewrite exec_captureLog. cbv zeta.
  destruct (Z.of_nat _ >=? _).
  - destruct (exec_flush_total net (pushed (record_of (client w) lvl msg md now) w)
                (pushed_nonempty _ w)) as (evs & i' & Hrun & _).
    rewrite Hrun. eexists. eexists. reflexivity.
  - eexists. eexists. reflexivity.
Qed.

(** ** Failures stay inside *)

(** C4, as the code has it. No call ends by throwing: [captureLog] and
    [flush], run against any network, end normally, and no call that is
    pending in a reachable state of the process has thrown. A flush writes
    the failure line with [console.error] once, after its last request, when
    the answer to that request was not accepted (retries exhausted on a
    status of 500 or more or on an exception, or a status that is neither
    accepted nor retried), and writes nothing when it was accepted, which
    includes a 4xx rejection. *)
Theorem delivery_failures_never_raise :
  (forall w lvl msg md now net,
      exists w', exec (captureLog lvl msg md now) net w = (w', Done tt)) /\
  (forall w net,
      buffer (client w) <> [] ->
      exists evs n,
        exec flush net w =
          (log_events
             (evs ++ if accepted (net (pred n)) then []
                     else [EvConsoleError failed_message])
             (drained w),
           Done tt) /\
        (0 < n)%nat /\
        fetches evs = repeat (fetch_event (client w) (buffer (client w))) n /\
        console_errors evs = []) /\
  (forall opts s t e,
      reachable opts s -> In t (pending s) -> t <> Threw e).
Proof.
  split; [|split].
  - intros w lvl msg md now net.
    destruct (exec_captureLog_total lvl msg md now net w) as (w' & i & H).
    exists w'. unfold exec. now rewrite H.
  - intros w net Hbuf.
    destruct (exec_flush_total net w Hbuf) as (evs & n & H & Hn & Hf & Hc & _).
    exists evs, n. unfold exec. rewrite H. repeat split; auto.
  - intros opts s t e Hreach Hin ->.
    destruct (reachable_Inv opts s Hreach) as (c & _ & [_ Hp]).
    rewrite Forall_forall in Hp. specialize (Hp _ Hin). simpl in Hp.
    discriminate.
Qed.

(** A client with [batchSize = 1] after its first [captureLog]: the call
    that is pending, suspended on its request, has not thrown. *)
Lemma delivery_failures_never_raise_witness :
  let opts := mkOptions (Some "key") None None (Some 1) None (Some 1) in
  let w0 := mkWorld (mkClient "key" "https://horizon-api.bylinee.com/v1/ingest"
                       "production" 1 2000 1 [] None) [] 0%nat [] [] in
  let s := spawn (captureLog error "down" [] "t") (mkSystem w0 []) in
  List.length (pending s) = 1%nat /\
  Forall (fun t => forall e, t <> Threw e) (pending s).
Proof.
  intros opts w0 s. split; [reflexivity|].
  apply Forall_forall. intros t Hin e.
  apply (proj2 (proj2 delivery_failures_never_raise) opts s t e); [|exact Hin].
  apply (reach_step opts (mkSystem w0 [])).
  - apply reach_boot. reflexivity.
  - apply step_captureLog.
Defined.

(** C4, as stated, fails on a 4xx rejection: the batch is dropped after one
    request and nothing at all is written with [console.error]. *)
Lemma rejected_batch_leaves_no_diagnostic :
  let c := mkClient "k" "u" "production" 50 2000 3
             [mkLogRecord info "a" [] "t"] None in
  let w := mkWorld c [] 0%nat [] [] in
  let w' := fst (exec flush (fun _ => Response 400) w) in
  trace w' = [EvFetch "u" "k" [mkLogRecord info "a" [] "t"]] /\
  buffer (client w') = [] /\
  console_errors (trace w') = [].
Proof.
  intros c w w'. vm_compute. repeat split.
Qed.

(** ** The fatal-error watchdog *)



Lemma fetches_In ev evs n :
  (0 < n)%nat -> fetches evs = repeat ev n -> In ev evs.
Proof.
  intros Hn Hf. destruct n as [|n]; [lia|].
  assert (H : In ev (fetches evs)) by (rewrite Hf; now left).
  unfold fetches in H. apply filter_In in H. tauto.
Qed.

(** *** The listeners stay registered *)



























(** A fresh process has no listener of the SDK. *)
Lemma boot_listeners opts w : boot opts = Some w -> listeners w = [].
Proof.
  unfold boot. destruct (new_HorizonClient opts); [|discriminate].
  intro H. injection H as <-. reflexivity.
Qed.

(** *** The two listeners, run on their own *)






(** ** What a [captureLog] call waits for *)

(** C9, as the code has it. A [captureLog] call that leaves the buffer below
    the batch size ends within the call, without a suspension. A call that
    brings the buffer to the batch size gives control back suspended on the
    request of the flush it started, and it is that flush from then on: run
    against any network, the call ends where the flush ends, after the
    request and every backoff wait. *)
Theorem captureLog_ends_with_its_flush (w : World) (lvl : Level)
    (msg : string) (md : JsObject) (now : string) :
  let c := client w in
  let r := record_of c lvl msg md now in
  let batch := buffer c ++ [r] in
  (Z.of_nat (List.length batch) < batchSize c ->
   captureLog lvl msg md now w = (kept r w, Done tt)) /\
  (Z.of_nat (List.length batch) >= batchSize c ->
   awaited_request (snd (captureLog lvl msg md now w)) =
     Some (mkRequest (ingestUrl c) (apiKey c) batch) /\
   captureLog lvl msg md now w = flush (pushed r w) /\
   forall net,
     exec (captureLog lvl msg md now) net w = exec flush net (pushed r w)).
Proof.
  intros c r batch.
  pose proof (captureLog_kept lvl msg md now w) as Hcap.
  cbv zeta in Hcap. fold c in Hcap. fold r in Hcap. fold batch in Hcap.
  split; intro Hlen.
  - assert (Hge : (Z.of_nat (List.length batch) >=? batchSize c) = false).
    { rewrite Z.geb_leb. apply Z.leb_gt. lia. }
    now rewrite Hcap, Hge.
  - assert (Hge : (Z.of_nat (List.length batch) >=? batchSize c) = true)
      by (apply Z.geb_le; lia).
    rewrite Hge in Hcap.
    split; [|split].
    + rewrite Hcap.
      destruct (flush_suspends (pushed r w) (pushed_nonempty r w)) as [k Hk].
      rewrite Hk. reflexivity.
    + exact Hcap.
    + intro net. unfold exec, exec_from. now rewrite Hcap.
Qed.

(** A client with [batchSize = 1]: the call is suspended on the request for
    its own record. *)
Lemma captureLog_ends_with_its_flush_witness :
  let c := mkClient "k" "u" "production" 1 2000 3 [] None in
  let w := mkWorld c [] 0%nat [] [] in
  let r := mkLogRecord info "a" [("sdk_env", JString "production")] "t" in
  awaited_request (snd (captureLog info "a" [] "t" w)) =
    Some (mkRequest "u" "k" [r]).
Proof.
  intros c w r.
  apply (proj2 (captureLog_ends_with_its_flush w info "a" [] "t")).
  simpl. lia.
Defined.

(** C9, as stated, fails at the threshold: with [batchSize = 1] and
    [maxRetries = 2] against a server that answers 503, the call is
    suspended on the request when it gives control back, and it ends only
    after three requests and backoff waits of 1000 and 2000 ms. *)
Lemma threshold_call_waits_for_the_send :
  let c := mkClient "k" "u" "production" 1 2000 2 [] None in
  let w := mkWorld c [] 0%nat [] [] in
  let r := mkLogRecord info "a" [("sdk_env", JString "production")] "t" in
  let call := captureLog info "a" [] "t" in
  snd (call w) <> Done tt /\
  awaited_request (snd (call w)) = Some (mkRequest "u" "k" [r]) /\
  let w' := fst (exec call (fun _ => Response 503) w) in
  snd (exec call (fun _ => Response 503) w) = Done tt /\
  delays (trace w') = [1000; 2000] /\
  List.length (fetches (trace w')) = 3%nat.
Proof.
  intros c w r call. split; [|split; [|split; [|split]]].
  - vm_compute. discriminate.
  - reflexivity.
  - reflexivity.
  - reflexivity.
  - reflexivity.
Qed.

(** * Further properties of the client *)

(** ** What the constructor makes of its options *)

Lemma or_number_defaulted n d : d <> 0 -> defaulted n 0 d (or_number n d).
Proof.
  intro Hd. unfold defaulted, or_number. repeat split.
  - intros [-> | ->]; reflexivity.
  - intros x -> Hx. destruct (Z.eqb_spec x 0); [contradiction|reflexivity].
  - destruct n as [x|]; [|exact Hd].
    destruct (Z.eqb_spec x 0); [exact Hd|assumption].
Qed.

Lemma or_string_defaulted s d : d <> "" -> defaulted s "" d (or_string s d).
Proof.
  intro Hd. unfold defaulted, or_string. repeat split.
  - intros [-> | ->]; reflexivity.
  - intros x -> Hx. destruct (String.eqb_spec x ""); [contradiction|reflexivity].
  - destruct s as [x|]; [|exact Hd].
    destruct (String.eqb_spec x ""); [exact Hd|assumption].
Qed.

(** X1. An instance that the constructor returns has no falsy field: the
    key is the non-empty key given, and each of the five options is the
    default ([https://horizon-api.bylinee.com/v1/ingest], [production], 50,
    2000, 3) when it is missing, empty or zero, and the value given
    otherwise, negative numbers included. So [maxRetries: 0] gives three
    retries and [batchSize: 0] a batch size of 50. *)
Theorem constructed_fields_are_never_falsy (opts : HorizonClientOptions)
    (c : HorizonClient) :
  new_HorizonClient opts = Instance c ->
  opt_apiKey opts = Some (apiKey c) /\ apiKey c <> "" /\
  defaulted (opt_ingestUrl opts) ""
    "https://horizon-api.bylinee.com/v1/ingest" (ingestUrl c) /\
  defaulted (opt_environment opts) "" "production" (environment c) /\
  defaulted (opt_batchSize opts) 0 50 (batchSize c) /\
  defaulted (opt_flushInterval opts) 0 2000 (flushInterval c) /\
  defaulted (opt_maxRetries opts) 0 3 (maxRetries c).
Proof.
  unfold new_HorizonClient.
  destruct (opt_apiKey opts) as [key|] eqn:Hkey; simpl; [|discriminate].
  destruct (String.eqb_spec key ""); [discriminate|].
  intro H. injection H as <-. simpl.
  split; [reflexivity|]. split; [assumption|].
  repeat split;
    try (apply or_string_defaulted; discriminate);
    try (apply or_number_defaulted; discriminate).
Qed.

(** [maxRetries: 0] and [batchSize: -1]: the instance retries three times
    and keeps the negative batch size. *)
Lemma constructed_fields_are_never_falsy_witness :
  exists c,
    new_HorizonClient
      (mkOptions (Some "key") None (Some "") (Some (-1)) None (Some 0)) =
      Instance c /\
    maxRetries c = 3 /\ batchSize c = -1 /\ environment c = "production".
Proof.
  eexists. split; [reflexivity|].
  pose proof (constructed_fields_are_never_falsy
                (mkOptions (Some "key") None (Some "") (Some (-1)) None (Some 0))
                _ eq_refl) as (_ & _ & _ & He & Hb & _ & Hm).
  split; [apply (proj1 Hm); now right|].
  split; [apply (proj1 (proj2 Hb) (-1)); [reflexivity|discriminate]|].
  apply (proj1 He). now right.
Defined.

(** ** The timer trigger *)



(** ** The record that is captured *)

Lemma get_set_prop_same k v o : get_prop k (set_prop k v o) = Some v.
Proof.
  induction o as [|[k' v'] o IH]; simpl.
  - now rewrite String.eqb_refl.
  - destruct (String.eqb k' k) eqn:E; simpl.
    + now rewrite String.eqb_refl.
    + now rewrite E.
Qed.

Lemma get_set_prop_other k k' v o :
  k' <> k -> get_prop k' (set_prop k v o) = get_prop k' o.
Proof.
  intro Hk. induction o as [|[k0 v0] o IH]; simpl.
  - destruct (String.eqb_spec k k'); [congruence|reflexivity].
  - destruct (String.eqb_spec k0 k) as [->|Hk0]; simpl.
    + destruct (String.eqb_spec k k'); [congruence|reflexivity].
    + destruct (String.eqb k0 k'); [reflexivity|exact IH].
Qed.

(** X5. The record that a [captureLog] call puts at the tail of the buffer,
    or of the batch it sends, has the level, message and clock reading of
    the call; its metadata holds [sdk_env] with the environment of the
    client, whatever [sdk_env] the caller passed, and every other key with
    the value the caller gave it. *)
Theorem captured_record_carries_environment (w : World) (lvl : Level)
    (msg : string) (md : JsObject) (now : string) :
  let c := client w in
  exists r,
    (captureLog lvl msg md now w = (kept r w, Done tt) /\
     buffer (client (kept r w)) = buffer c ++ [r]
     \/
     awaited_request (snd (captureLog lvl msg md now w)) =
       Some (mkRequest (ingestUrl c) (apiKey c) (buffer c ++ [r]))) /\
    level r = lvl /\ message r = msg /\ timestamp r = now /\
    get_prop "sdk_env" (metadata r) = Some (JString (environment c)) /\
    forall k, k <> "sdk_env" -> get_prop k (metadata r) = get_prop k md.
Proof.
  intro c. exists (record_of c lvl msg md now).
  split; [|split; [reflexivity|split; [reflexivity|split; [reflexivity|]]]].
  - rewrite captureLog_kept. cbv zeta. fold c.
    destruct (Z.of_nat _ >=? _).
    + right.
      destruct (flush_suspends (pushed (record_of c lvl msg md now) w)
                  (pushed_nonempty _ w)) as [k Hk].
      rewrite Hk. reflexivity.
    + left. split; [reflexivity|apply kept_buffer].
  - split.
    + apply get_set_prop_same.
    + intros k Hk. now apply get_set_prop_other.
Qed.

(** ** How much a flush can cost *)

Lemma total_delay_app evs1 evs2 :
  total_delay (evs1 ++ evs2) = total_delay evs1 + total_delay evs2.
Proof.
  unfold total_delay. rewrite delays_app, fold_right_app.
  induction (delays evs1) as [|d ds IH]; simpl; [reflexivity|].
  rewrite IH. lia.
Qed.

(** One attempt of [send_json]: as one attempt of [send] when the payload
    serialises, and straight to the [catch] block, with nothing requested,
    when it does not. *)
Lemma exec_send_json_S serialises fuel payload a net i w :
  exec_from (send_json serialises (S fuel) payload a) net i w =
  let w1 := log_event (fetch_event (client w) payload) w in
  if serialises a then
    match net i with
    | Response s =>
        if ok s || ((400 <=? s) && (s <? 500)) then (w1, Done true, S i)
        else if (500 <=? s) && (a <? maxRetries (client w)) then
          exec_from (send_json serialises fuel payload (a + 1)) net (S i)
            (log_event (EvSleep (2 ^ a * 1000)) w1)
        else (w1, Done false, S i)
    | NetworkError _ =>
        if a <? maxRetries (client w) then
          exec_from (send_json serialises fuel payload (a + 1)) net (S i)
            (log_event (EvSleep (2 ^ a * 1000)) w1)
        else (w1, Done false, S i)
    end
  else
    if a <? maxRetries (client w) then
      exec_from (send_json serialises fuel payload (a + 1)) net i
        (log_event (EvSleep (2 ^ a * 1000)) w)
    else (w, Done false, i).
Proof.
  unfold exec_from. cbn [send_json].
  destruct (serialises a).
  - unfold bind, try_catch, this_, fetch; simpl.
    destruct (net i) as [s|e]; simpl.
    + destruct (ok s || ((400 <=? s) && (s <? 500))); simpl; [reflexivity|].
      unfold bind, this_; simpl.
      destruct ((500 <=? s) && (a <? maxRetries (client w))); simpl;
        reflexivity.
    + unfold bind, this_; simpl.
      destruct (a <? maxRetries (client w)); simpl; reflexivity.
  - unfold bind, try_catch, this_, throw; simpl.
    unfold bind, this_; simpl.
    destruct (a <? maxRetries (client w)); simpl; reflexivity.
Qed.

(** A payload that serialises at every attempt: [send_json] runs as [send]. *)
Lemma send_json_serialisable serialises payload net fuel :
  (forall a, serialises a = true) ->
  forall a i w,
    exec_from (send_json serialises fuel payload a) net i w =
    exec_from (send fuel payload a) net i w.
Proof.
  intro Hs. induction fuel as [|fuel IH]; intros a i w; [reflexivity|].
  rewrite exec_send_json_S, exec_send_S. cbv zeta. rewrite Hs, !IH.
  reflexivity.
Qed.

Lemma flush_json_empty serialises w :
  buffer (client w) = [] -> flush_json serialises w = (w, Done tt).
Proof.
  intro H. unfold flush_json, bind, this_. simpl. now rewrite H.
Qed.

Lemma flush_json_nonempty serialises w :
  buffer (client w) <> [] ->
  flush_json serialises w =
  bind (send_json serialises (send_fuel (client w)) (buffer (client w)) 0)
    report (drained w).
Proof.
  intro H. unfold flush_json, drained, report.
  destruct w as [c ar nx ls tr]. destruct c as [k u e bs fi mr buf tm].
  simpl in H. destruct buf as [|r buf]; [congruence|].
  destruct tm as [h|]; unfold bind, this_; simpl; [reflexivity|].
  now rewrite app_nil_r.
Qed.

Lemma exec_flush_json_nonempty serialises net w :
  buffer (client w) <> [] ->
  exec_from (flush_json serialises) net 0 w =
  and_then
    (exec_from
       (send_json serialises (send_fuel (client w)) (buffer (client w)) 0)
       net 0 (drained w))
    report net.
Proof.
  intro H. unfold exec_from at 1. rewrite (flush_json_nonempty serialises w H).
  apply (exec_bind
           (send_json serialises (send_fuel (client w)) (buffer (client w)) 0)
           report net 0 (drained w)).
Qed.

Lemma backoff_fetches n a : fetches (backoff n a) = [].
Proof. revert a; induction n as [|n IH]; intro a; simpl; auto. Qed.

Lemma backoff_delays n a :
  delays (backoff n a) = map (fun j => 2 ^ (a + Z.of_nat j) * 1000) (seq 0 n).
Proof.
  revert a; induction n as [|n IH]; intro a; [reflexivity|].
  cbn [backoff delays seq map]. rewrite IH, <- seq_shift, map_map.
  f_equal; [now rewrite Z.add_0_r|].
  apply map_ext; intro j. do 2 f_equal. lia.
Qed.

(** From attempt [a] on, against any network and whatever the payload
    holds: every attempt but the last is followed by one wait, an attempt
    makes at most one request, there are no more attempts than one and the
    retries that are left, and the waits add up to at most
    [2 ^ max - 2 ^ a] seconds. A payload that serialises is requested at
    every attempt; one that never does is never requested, goes through
    every wait and fails. *)
Lemma send_json_bounds serialises payload net fuel :
  forall a i w,
    0 <= a ->
    (Z.to_nat (maxRetries (client w) - a) < fuel)%nat ->
    exists evs b i',
      exec_from (send_json serialises fuel payload a) net i w =
        (log_events evs w, Done b, i') /\
      (List.length (fetches evs) <= List.length (delays evs) + 1 <=
       Z.to_nat (maxRetries (client w) - a) + 1)%nat /\
      0 <= total_delay evs <=
        (2 ^ Z.max a (maxRetries (client w)) - 2 ^ a) * 1000 /\
      console_errors evs = [] /\
      ((forall a', serialises a' = true) ->
       (List.length (fetches evs) = List.length (delays evs) + 1)%nat) /\
      ((forall a', serialises a' = false) ->
       evs = backoff (Z.to_nat (maxRetries (client w) - a)) a /\ b = false).
Proof.
  induction fuel as [|fuel IH]; intros a i w Ha Hfuel; [lia|].
  rewrite exec_send_json_S. cbv zeta.
  set (req := fetch_event (client w) payload).
  set (mx := maxRetries (client w)) in *.
  assert (Hpow : 2 ^ a <= 2 ^ Z.max a mx)
    by (apply Z.pow_le_mono_r; lia).
  assert (Hsucc : 2 ^ (a + 1) = 2 * 2 ^ a)
    by (rewrite Z.pow_add_r by lia; lia).
  assert (Hpos : 0 < 2 ^ a) by (apply Z.pow_pos_nonneg; lia).
  (* the attempt was requested and is the last *)
  assert (Hstop : forall b : bool, serialises a = true ->
    exists evs b' i',
      (log_event req w, Done b, S i) = (log_events evs w, Done b', i') /\
      (List.length (fetches evs) <= List.length (delays evs) + 1 <=
       Z.to_nat (mx - a) + 1)%nat /\
      0 <= total_delay evs <= (2 ^ Z.max a mx - 2 ^ a) * 1000 /\
      console_errors evs = [] /\
      ((forall a', serialises a' = true) ->
       (List.length (fetches evs) = List.length (delays evs) + 1)%nat) /\
      ((forall a', serialises a' = false) ->
       evs = backoff (Z.to_nat (mx - a)) a /\ b' = false)).
  { intros b Hs. exists [req], b, (S i).
    split; [reflexivity|]. cbn.
    split; [lia|]. split; [lia|]. split; [reflexivity|].
    split; [reflexivity|].
    intro Hnever. rewrite Hnever in Hs. discriminate. }
  (* the attempt, requested or not, is followed by a wait and a retry *)
  assert (Hgo : forall (pre : list Event) j,
    a < mx ->
    (pre = [req] /\ serialises a = true \/ pre = [] /\ serialises a = false) ->
    exists evs b' i',
      exec_from (send_json serialises fuel payload (a + 1)) net j
        (log_event (EvSleep (2 ^ a * 1000)) (log_events pre w)) =
        (log_events evs w, Done b', i') /\
      (List.length (fetches evs) <= List.length (delays evs) + 1 <=
       Z.to_nat (mx - a) + 1)%nat /\
      0 <= total_delay evs <= (2 ^ Z.max a mx - 2 ^ a) * 1000 /\
      console_errors evs = [] /\
      ((forall a', serialises a' = true) ->
       (List.length (fetches evs) = List.length (delays evs) + 1)%nat) /\
      ((forall a', serialises a' = false) ->
       evs = backoff (Z.to_nat (mx - a)) a /\ b' = false)).
  { intros pre j Hlt Hpre.
    set (w2 := log_event (EvSleep (2 ^ a * 1000)) (log_events pre w)).
    destruct (IH (a + 1) j w2)
      as (evs & b' & i' & Hrun & Hf & Ht & Hc & Hall & Hnone).
    { lia. }
    { change (maxRetries (client w2)) with mx. lia. }
    change (maxRetries (client w2)) with mx in Hf, Ht, Hnone.
    exists (pre ++ [EvSleep (2 ^ a * 1000)] ++ evs), b', i'.
    rewrite Hrun. unfold w2.
    rewrite !log_event_events, !log_events_app, <- ?app_assoc.
    split; [reflexivity|].
    replace (Z.max (a + 1) mx) with (Z.max a mx) in Ht by lia.
    assert (Hn : Z.to_nat (mx - a) = S (Z.to_nat (mx - (a + 1)))) by lia.
    rewrite !fetches_app, !delays_app, !total_delay_app, !console_errors_app,
      !length_app, Hc.
    change (List.length (fetches [EvSleep (2 ^ a * 1000)])) with 0%nat.
    change (List.length (delays [EvSleep (2 ^ a * 1000)])) with 1%nat.
    change (total_delay [EvSleep (2 ^ a * 1000)]) with (2 ^ a * 1000 + 0).
    change (console_errors [EvSleep (2 ^ a * 1000)]) with (@nil string).
    destruct Hpre as [[-> Hs]|[-> Hs]].
    - change (List.length (fetches [req])) with 1%nat.
      change (List.length (delays [req])) with 0%nat.
      change (total_delay [req]) with 0.
      change (console_errors [req]) with (@nil string).
      split; [lia|]. split; [lia|]. split; [reflexivity|].
      split.
      + intro Hal. specialize (Hall Hal). lia.
      + intro Hnever. rewrite Hnever in Hs. discriminate.
    - change (List.length (fetches [])) with 0%nat.
      change (List.length (delays [])) with 0%nat.
      change (total_delay []) with 0.
      change (console_errors []) with (@nil string).
      split; [lia|]. split; [lia|]. split; [reflexivity|].
      split.
      + intro Hal. rewrite Hal in Hs. discriminate.
      + intro Hnever. destruct (Hnone Hnever) as [-> ->].
        split; [|reflexivity]. rewrite Hn. reflexivity. }
  destruct (serialises a) eqn:Hs.
  - destruct (net i) as [s|e].
    + destruct (ok s || ((400 <=? s) && (s <? 500))); [now apply Hstop|].
      destruct ((500 <=? s) && (a <? mx)) eqn:Hre; [|now apply Hstop].
      apply andb_true_iff in Hre. destruct Hre as [_ Hlt].
      apply (Hgo [req] (S i)); [now apply Z.ltb_lt|now left].
    + destruct (a <? mx) eqn:Hlt; [|now apply Hstop].
      apply (Hgo [req] (S i)); [now apply Z.ltb_lt|now left].
  - destruct (a <? mx) eqn:Hlt.
    + apply Z.ltb_lt in Hlt.
      pose proof (Hgo [] i Hlt (or_intror (conj eq_refl eq_refl))) as H.
      rewrite log_events_nil in H. exact H.
    + apply Z.ltb_ge in Hlt.
      exists [], false, i. rewrite log_events_nil.
      split; [reflexivity|]. cbn.
      split; [lia|]. split; [lia|]. split; [reflexivity|].
      split.
      * intro Hal. rewrite Hal in Hs. discriminate.
      * intros _. replace (Z.to_nat (mx - a)) with 0%nat by lia.
        split; reflexivity.
Qed.

(** X4. Whatever the network answers and whatever the payload holds, a
    flush of a non-empty buffer makes at most [maxRetries + 1] attempts (one,
    if [maxRetries] is negative), each with at most one request and each but
    the last followed by one wait; it waits [2 ^ maxRetries - 1] seconds at
    most in all (7 s for the default of 3) and writes at most one line with
    [console.error]. When [JSON.stringify(payload)] returns at every
    attempt, every attempt makes its request, so that there is at least one,
    and the flush runs as [flush]. When it throws at every attempt, nothing
    is ever requested: the flush goes through every backoff wait and writes
    the failure line. *)
Theorem flush_effort_is_bounded (serialises : Z -> bool) (w : World)
    (net : nat -> FetchResult) :
  buffer (client w) <> [] ->
  let mx := maxRetries (client w) in
  exists evs,
    trace (fst (exec (flush_json serialises) net w)) =
      trace (drained w) ++ evs /\
    (List.length (fetches evs) <= List.length (delays evs) + 1 <=
     Z.to_nat mx + 1)%nat /\
    0 <= total_delay evs <= (2 ^ Z.max 0 mx - 1) * 1000 /\
    (List.length (console_errors evs) <= 1)%nat /\
    ((forall a, serialises a = true) ->
     (List.length (fetches evs) = List.length (delays evs) + 1)%nat /\
     exec (flush_json serialises) net w = exec flush net w) /\
    ((forall a, serialises a = false) ->
     evs = backoff (Z.to_nat mx) 0 ++ [EvConsoleError failed_message]).
Proof.
  intros Hbuf mx. unfold exec.
  rewrite (exec_flush_json_nonempty serialises net w Hbuf).
  destruct (send_json_bounds serialises (buffer (client w)) net
              (send_fuel (client w)) 0 0%nat (drained w))
    as (evs & b & i' & Hrun & Hf & Ht & Hc & Hall & Hnone).
  { lia. }
  { unfold send_fuel. simpl. rewrite Z.sub_0_r. lia. }
  change (maxRetries (client (drained w))) with mx in Hf, Ht, Hnone.
  rewrite Z.sub_0_r in Hf, Hnone. rewrite Z.pow_0_r in Ht.
  rewrite Hrun. unfold and_then. rewrite exec_report, log_events_app.
  exists (evs ++ if b then [] else [EvConsoleError failed_message]).
  split; [reflexivity|].
  rewrite fetches_app, delays_app, total_delay_app, console_errors_app,
    !length_app, Hc.
  split; [destruct b; cbn; lia|].
  split; [destruct b; cbn; lia|].
  split; [destruct b; cbn; lia|].
  split.
  - intro Hal. split; [specialize (Hall Hal); destruct b; cbn; lia|].
    rewrite (exec_flush_nonempty net w Hbuf).
    rewrite <- (send_json_serialisable serialises (buffer (client w)) net
                  (send_fuel (client w)) Hal 0 0%nat (drained w)).
    rewrite Hrun. unfold and_then. now rewrite exec_report, log_events_app.
  - intro Hnever. destruct (Hnone Hnever) as [-> ->]. reflexivity.
Qed.

(** A default client and a record whose metadata cannot be serialised,
    whatever the network: no request, the waits of 1, 2 and 4 seconds, and
    the failure line. *)
Lemma flush_effort_is_bounded_witness :
  let c := mkClient "k" "u" "production" 50 2000 3
             [mkLogRecord info "a" [("n", JOther "10")] "t"] None in
  let w := mkWorld c [] 0%nat [] [] in
  let net := fun _ : nat => Response 200 in
  exists evs,
    trace (fst (exec (flush_json (fun _ => false)) net w)) = evs /\
    evs = [EvSleep 1000; EvSleep 2000; EvSleep 4000;
           EvConsoleError failed_message] /\
    fetches evs = [] /\ total_delay evs = 7000.
Proof.
  intros c w net.
  destruct (flush_effort_is_bounded (fun _ => false) w net) as (evs & Htr & H).
  { simpl. discriminate. }
  exists evs. split; [exact Htr|].
  destruct H as (_ & _ & _ & _ & Hnever).
  rewrite (Hnever (fun _ => eq_refl)). repeat split.
Defined.

(** ** A window below the threshold *)




(** ** A stronger invariant of the event loop *)

Section Keeping.
Variable I : World -> Prop.

Lemma bind_task_keeps {A B} (Q : A -> Prop) (Q' : B -> Prop) throws
    (f : A -> M B) (t : Task A) :
  (forall a, Q a -> m_inv I Q' throws (f a)) ->
  task_inv I Q throws t ->
  forall w, I w ->
    let (w', t') := bind_task t f w in I w' /\ task_inv I Q' throws t'.
Proof.
  intro Hf.
  induction t as [a|e|c| |req k IH|ms k IH] using Task_induction;
    intros Ht w Hw; simpl in *.
  - apply (Hf a Ht w Hw).
  - split; assumption.
  - split; [assumption|exact Logic.I].
  - split; assumption.
  - split; [assumption|]. intros r w' Hw'.
    specialize (Ht r w' Hw'). specialize (IH r w').
    destruct (k r w') as [w'' t']. simpl in IH. destruct Ht as [Hw'' Ht'].
    apply (IH Ht' w'' Hw'').
  - split; [assumption|]. intros w' Hw'.
    specialize (Ht w' Hw'). specialize (IH w').
    destruct (k w') as [w'' t']. simpl in IH. destruct Ht as [Hw'' Ht'].
    apply (IH Ht' w'' Hw'').
Qed.

Lemma bind_keeps {A B} (Q : A -> Prop) (Q' : B -> Prop) throws
    (m : M A) (f : A -> M B) :
  m_inv I Q throws m ->
  (forall a, Q a -> m_inv I Q' throws (f a)) ->
  m_inv I Q' throws (bind m f).
Proof.
  intros Hm Hf w Hw. unfold bind. specialize (Hm w Hw).
  destruct (m w) as [w' t]. destruct Hm as [Hw' Ht].
  apply (bind_task_keeps Q Q' throws f t Hf Ht w' Hw').
Qed.

Lemma catch_task_keeps {A} (Q : A -> Prop) throws (h : string -> M A)
    (t : Task A) :
  (forall e, m_inv I Q throws (h e)) ->
  task_inv I Q true t ->
  forall w, I w ->
    let (w', t') := catch_task t h w in I w' /\ task_inv I Q throws t'.
Proof.
  intro Hh.
  induction t as [a|e|c| |req k IH|ms k IH] using Task_induction;
    intros Ht w Hw; simpl in *.
  - split; assumption.
  - apply (Hh e w Hw).
  - split; [assumption|exact Logic.I].
  - split; assumption.
  - split; [assumption|]. intros r w' Hw'.
    specialize (Ht r w' Hw'). specialize (IH r w').
    destruct (k r w') as [w'' t']. simpl in IH. destruct Ht as [Hw'' Ht'].
    apply (IH Ht' w'' Hw'').
  - split; [assumption|]. intros w' Hw'.
    specialize (Ht w' Hw'). specialize (IH w').
    destruct (k w') as [w'' t']. simpl in IH. destruct Ht as [Hw'' Ht'].
    apply (IH Ht' w'' Hw'').
Qed.

Lemma try_catch_keeps {A} (Q : A -> Prop) throws (body : M A)
    (h : string -> M A) :
  m_inv I Q true body ->
  (forall e, m_inv I Q throws (h e)) ->
  m_inv I Q throws (try_catch body h).
Proof.
  intros Hb Hh w Hw. unfold try_catch. specialize (Hb w Hw).
  destruct (body w) as [w' t]. destruct Hb as [Hw' Ht].
  apply (catch_task_keeps Q throws h t Hh Ht w' Hw').
Qed.

Lemma ret_keeps {A} (Q : A -> Prop) throws (a : A) :
  Q a -> m_inv I Q throws (ret a).
Proof. intros Ha w Hw. simpl. split; assumption. Qed.
End Keeping.

Lemma config_fields a b :
  config a = config b ->
  apiKey a = apiKey b /\ ingestUrl a = ingestUrl b /\
  batchSize a = batchSize b /\ maxRetries a = maxRetries b.
Proof. unfold config. intro H. injection H. auto. Qed.

Section Tidiness.
Variable cfg : string * string * string * Z * Z * Z.

Let J := Tidy cfg.

Lemma Tidy_quiet e w :
  request_ok (ingestUrl (client w)) (apiKey (client w)) (batchSize (client w))
    e ->
  J w -> J (log_event e w).
Proof.
  intros He (Hinv & Harm & Hlen & Hreq). unfold J, Tidy.
  split; [exact Hinv|]. split; [exact Harm|]. split; [exact Hlen|].
  cbn. apply Forall_app. split; [exact Hreq|]. now constructor.
Qed.

Lemma this_keeps throws :
  m_inv J (fun c => config c = cfg) throws this_.
Proof.
  intros w Hw. simpl. split; [assumption|]. now destruct Hw as [[H _] _].
Qed.

Lemma fetch_keeps this payload :
  config this = cfg -> payload <> [] ->
  Z.of_nat (List.length payload) <= Z.max 1 (batchSize this) ->
  m_inv J (fun _ => True) true (fetch (ingestUrl this) (apiKey this) payload).
Proof.
  intros Hthis Hp Hsize w Hw. simpl. split.
  - apply Tidy_quiet; [|exact Hw]. simpl.
    destruct Hw as [[Hcfg _] _]. rewrite <- Hcfg in Hthis.
    apply config_fields in Hthis. destruct Hthis as (Hk & Hu & Hb & _).
    rewrite <- Hb. repeat split; assumption.
  - intros [s|e] w' Hw'; simpl; split; auto.
Qed.

Lemma sleep_keeps throws ms : m_inv J (fun _ => True) throws (sleep ms).
Proof.
  intros w Hw. simpl. split.
  - apply Tidy_quiet; [exact Logic.I|exact Hw].
  - intros w' Hw'. split; auto.
Qed.

Lemma console_error_keeps throws msg :
  m_inv J (fun _ => True) throws (console_error msg).
Proof.
  intros w Hw. simpl. split; [|exact Logic.I].
  apply Tidy_quiet; [exact Logic.I|exact Hw].
Qed.

Lemma process_exit_keeps {A} (Q : A -> Prop) throws code :
  m_inv J Q throws (process_exit code).
Proof.
  intros w Hw. simpl. split; [|exact Logic.I].
  apply Tidy_quiet; [exact Logic.I|exact Hw].
Qed.

Lemma report_keeps throws b : m_inv J (fun _ => True) throws (report b).
Proof.
  destruct b; unfold report; simpl.
  - now apply ret_keeps.
  - apply console_error_keeps.
Qed.

Lemma retry_or_stop_keeps throws (go : bool) a :
  (go = true -> a < snd cfg) ->
  m_inv J (completes_for (snd cfg) a) throws
    (if go then sleep (2 ^ a * 1000) ;; ret (ReturnSend (a + 1))
     else ret (Return false)).
Proof.
  intro Hgo. destruct go.
  - apply (bind_keeps J (fun _ => True)); [apply sleep_keeps|].
    intros _ _. apply ret_keeps. simpl. split; [reflexivity|now apply Hgo].
  - apply ret_keeps. exact Logic.I.
Qed.

Lemma config_maxRetries this : config this = cfg -> maxRetries this = snd cfg.
Proof. intros <-. reflexivity. Qed.

Lemma config_batchSize this :
  config this = cfg -> batchSize this = snd (fst (fst cfg)).
Proof. intros <-. reflexivity. Qed.

Lemma send_keeps payload fuel :
  payload <> [] ->
  Z.of_nat (List.length payload) <= Z.max 1 (snd (fst (fst cfg))) ->
  forall a,
    (Z.to_nat (snd cfg - a) < fuel)%nat ->
    m_inv J (fun _ => True) false (send fuel payload a).
Proof.
  intros Hp Hsize. induction fuel as [|fuel IH]; intros a Hfuel; [lia|].
  cbn [send].
  apply (bind_keeps J (completes_for (snd cfg) a)).
  - apply try_catch_keeps.
    + apply (bind_keeps J (fun c => config c = cfg)); [apply this_keeps|].
      intros this Hthis.
      apply (bind_keeps J (fun _ => True)).
      { apply fetch_keeps; auto. now rewrite (config_batchSize this Hthis). }
      intros status _.
      destruct (ok status || ((400 <=? status) && (status <? 500))).
      * apply ret_keeps. exact Logic.I.
      * apply (bind_keeps J (fun c => config c = cfg)); [apply this_keeps|].
        intros this' Hthis'. apply retry_or_stop_keeps.
        intro H. apply andb_true_iff in H. destruct H as [_ H].
        apply Z.ltb_lt in H. now rewrite <- (config_maxRetries this' Hthis').
    + intro e.
      apply (bind_keeps J (fun c => config c = cfg)); [apply this_keeps|].
      intros this Hthis. apply retry_or_stop_keeps.
      intro H. apply Z.ltb_lt in H.
      now rewrite <- (config_maxRetries this Hthis).
  - intros [b|a'] Hc; simpl in Hc.
    + now apply ret_keeps.
    + destruct Hc as [-> Hlt]. apply IH. lia.
Qed.

(** [flush] from a heap in which the armed timers are at most the one the
    handle names: the heap between turns, the heap in which that timer has
    just fired, and the heap in which [captureLog] has just pushed. *)
Lemma flush_keeps_from w :
  config (client w) = cfg ->
  (forall h, In h (armed w) -> timer (client w) = Some h) ->
  NoDup (armed w) ->
  Forall
    (request_ok (ingestUrl (client w)) (apiKey (client w))
       (batchSize (client w)))
    (trace w) ->
  Z.of_nat (List.length (buffer (client w))) <= Z.max 1 (batchSize (client w)) ->
  (buffer (client w) = [] -> J w) ->
  let (w', t) := flush w in
  J w' /\ task_inv J (fun _ => True) false t.
Proof.
  intros Hcfg Harmed Hnd Hreq Hsize Hempty.
  destruct (buffer (client w)) as [|r buf] eqn:Hbuf.
  - rewrite (flush_empty w Hbuf). split; [now apply Hempty|exact Logic.I].
  - assert (Hne : buffer (client w) <> []) by (rewrite Hbuf; discriminate).
    rewrite (flush_nonempty w Hne).
    apply (bind_keeps J (fun _ => True) (fun _ => True) false
             (send (send_fuel (client w)) (buffer (client w)) 0) report).
    + apply send_keeps; [exact Hne| |].
      * rewrite Hbuf, <- (config_batchSize (client w) Hcfg). exact Hsize.
      * unfold send_fuel.
        rewrite (config_maxRetries (client w) Hcfg), Z.sub_0_r. lia.
    + intros b _. apply report_keeps.
    + unfold J, Tidy. split; [now apply Inv_drained|].
      split; [intro H; now elim H|]. split; [intro H; now elim H|].
      cbn. apply Forall_app. split; [exact Hreq|].
      destruct (timer (client w)); repeat constructor.
Qed.

Lemma Inv_armed_named w :
  Inv cfg w ->
  (forall h, In h (armed w) -> timer (client w) = Some h) /\ NoDup (armed w).
Proof.
  intros (_ & Harmed & _). rewrite Harmed.
  destruct (timer (client w)) as [h'|]; simpl.
  - split; [intros h [->|[]]; reflexivity|]. repeat constructor. intros [].
  - split; [intros h []|constructor].
Qed.

Lemma Tidy_size w :
  J w ->
  Z.of_nat (List.length (buffer (client w))) <= Z.max 1 (batchSize (client w)).
Proof.
  intros (_ & _ & Hlen & _).
  destruct (buffer (client w)) as [|r buf] eqn:Hbuf; [simpl; lia|].
  assert (H : r :: buf <> []) by discriminate. specialize (Hlen H). lia.
Qed.

Lemma flush_keeps : m_inv J (fun _ => True) false flush.
Proof.
  intros w Hw. pose proof Hw as (Hinv & _ & _ & Hreq).
  destruct (Inv_armed_named w Hinv) as [Hnamed Hnd].
  apply flush_keeps_from; auto; [now destruct Hinv|now apply Tidy_size].
Qed.

Lemma captureLog_keeps lvl msg md now :
  m_inv J (fun _ => True) false (captureLog lvl msg md now).
Proof.
  intros w Hw. rewrite captureLog_kept. cbv zeta.
  set (r := record_of (client w) lvl msg md now).
  pose proof Hw as (Hinv & Harm & _ & Hreq).
  destruct (Z.of_nat (List.length (buffer (client w) ++ [r])) >=?
            batchSize (client w)) eqn:Hge.
  - pose proof (Inv_pushed cfg r w Hinv) as Hinv1.
    destruct (Inv_armed_named (pushed r w) Hinv1) as [Hnamed Hnd].
    apply flush_keeps_from; auto.
    + now destruct Hinv1.
    + rewrite buffer_pushed, length_app.
      change (batchSize (client (pushed r w))) with (batchSize (client w)).
      pose proof (Tidy_size w Hw) as Hsz.
      destruct Hw as (_ & _ & Hlen & _).
      destruct (buffer (client w)) as [|r0 buf]; [simpl; lia|].
      assert (H : r0 :: buf <> []) by discriminate. specialize (Hlen H).
      cbn [List.length] in *. lia.
    + intro Hempty. now elim (pushed_nonempty r w).
  - split; [|exact Logic.I].
    rewrite Z.geb_leb in Hge. apply Z.leb_gt in Hge.
    pose proof (Inv_pushed cfg r w Hinv) as (Hcfg1 & Harmed1 & Hbuf1).
    unfold J, Tidy, kept.
    destruct (timer (client w)) as [h|] eqn:Ht.
    + split; [now apply Inv_pushed|].
      split; [intros _; cbn; rewrite Ht; discriminate|].
      split; [intros _; exact Hge|exact Hreq].
    + split.
      { unfold Inv, timer_armed. cbn [client armed timer buffer].
        rewrite Harmed1. cbn. rewrite Ht. cbn.
        split; [exact Hcfg1|]. split; [reflexivity|].
        intros _. destruct (buffer (client w)); discriminate. }
      split; [intros _; cbn; discriminate|].
      split; [intros _; exact Hge|].
      cbn. apply Forall_app. split; [exact Hreq|]. repeat constructor.
Qed.

Lemma on_uncaughtException_keeps e now :
  m_inv J (fun _ => True) false (on_uncaughtException e now).
Proof.
  unfold on_uncaughtException.
  apply (bind_keeps J (fun _ => True)); [apply console_error_keeps|].
  intros _ _.
  apply (bind_keeps J (fun _ => True)); [apply captureLog_keeps|].
  intros _ _.
  apply (bind_keeps J (fun _ => True)); [apply flush_keeps|].
  intros _ _. apply process_exit_keeps.
Qed.

Lemma SysTidy_spawn m s :
  m_inv J (fun _ => True) false m -> SysTidy cfg s -> SysTidy cfg (spawn m s).
Proof.
  intros Hm [Hw Hp]. unfold spawn. specialize (Hm (world s) Hw).
  destruct (m (world s)) as [w' t]. destruct Hm as [Hw' Ht].
  split; [exact Hw'|]. simpl. now constructor.
Qed.

Lemma SysTidy_step s s' : step s s' -> SysTidy cfg s -> SysTidy cfg s'.
Proof.
  intros Hstep Hs. destruct Hstep.
  - apply SysTidy_spawn; [apply captureLog_keeps|exact Hs].
  - apply SysTidy_spawn; [|exact Hs].
    intros w Hw. simpl. split; [exact Hw|exact Logic.I].
  - apply SysTidy_spawn; [apply flush_keeps|exact Hs].
  - destruct Hs as [Hw Hp]. pose proof Hw as (Hinv & Harm & Hlen & Hreq).
    pose proof Hinv as (Hcfg & Harmed & Hbuf).
    unfold spawn. cbn [world pending].
    rewrite Harmed in H.
    destruct (timer (client (world s))) as [h'|] eqn:Ht;
      simpl in H; [|tauto].
    destruct H as [->|[]].
    assert (Hfire : armed (fire h (world s)) = []).
    { unfold fire. simpl. rewrite Harmed. simpl. now rewrite Nat.eqb_refl. }
    pose proof (flush_keeps_from (fire h (world s))) as Hflush.
    destruct (flush (fire h (world s))) as [w' t].
    destruct Hflush as [Hw' Ht'].
    + exact Hcfg.
    + rewrite Hfire. intros ? [].
    + rewrite Hfire. constructor.
    + exact Hreq.
    + exact (Tidy_size (world s) Hw).
    + intro Hempty. exfalso. apply Hbuf; [discriminate|exact Hempty].
    + split; [exact Hw'|]. simpl. now constructor.
  - apply SysTidy_spawn; [apply on_uncaughtException_keeps|exact Hs].
  - apply SysTidy_spawn; [apply captureLog_keeps|exact Hs].
  - destruct Hs as [Hw Hp]. rewrite H in Hp.
    apply Forall_app in Hp. destruct Hp as [Hp1 Hp2].
    inversion Hp2 as [|? ? Hk Hp2']; subst.
    simpl in Hk. specialize (Hk r (world s) Hw).
    destruct (k r (world s)) as [w' t']. destruct Hk as [Hw' Ht'].
    split; [exact Hw'|]. simpl. apply Forall_app. split; auto.
  - destruct Hs as [Hw Hp]. rewrite H in Hp.
    apply Forall_app in Hp. destruct Hp as [Hp1 Hp2].
    inversion Hp2 as [|? ? Hk Hp2']; subst.
    simpl in Hk. specialize (Hk (world s) Hw).
    destruct (k (world s)) as [w' t']. destruct Hk as [Hw' Ht'].
    split; [exact Hw'|]. simpl. apply Forall_app. split; auto.
Qed.
End Tidiness.

Lemma reachable_SysTidy opts c s :
  new_HorizonClient opts = Instance c ->
  reachable opts s ->
  SysTidy (config c) s.
Proof.
  intros Hnew Hreach. induction Hreach as [w Hboot|s s' _ IH Hstep].
  - destruct (boot_instance opts w Hboot) as (c' & Hc' & ->).
    rewrite Hnew in Hc'. injection Hc' as <-.
    destruct (new_instance_fresh opts c Hnew) as [Hb Ht].
    split; [|constructor]. unfold Tidy, Inv. cbn. rewrite Hb, Ht.
    repeat split; auto; try congruence.
  - now apply (SysTidy_step (config c) s s').
Qed.

Lemma reachable_Tidy opts s :
  reachable opts s ->
  exists c,
    new_HorizonClient opts = Instance c /\ SysTidy (config c) s.
Proof.
  intro Hreach. destruct (reachable_instance opts s Hreach) as [c Hc].
  exists c. split; [exact Hc|]. now apply (reachable_SysTidy opts c s).
Qed.

(** X6. In every state that the process reaches, the buffer is empty
    exactly when no flush timer is armed, so that a buffered record always
    has a flush scheduled; and the buffer holds fewer records than the batch
    size (none, if the batch size is not positive). *)
Theorem buffered_records_are_scheduled (opts : HorizonClientOptions)
    (s : System) :
  reachable opts s ->
  let w := world s in
  let c := client w in
  (buffer c = [] <-> timer c = None) /\
  (buffer c = [] <-> armed w = []) /\
  Z.of_nat (List.length (buffer c)) < Z.max 1 (batchSize c).
Proof.
  intros Hreach w c.
  destruct (reachable_Tidy opts s Hreach) as (c0 & _ & [Htidy _]).
  fold w in Htidy. destruct Htidy as ((_ & Harmed & Hbuf) & Harm & Hlen & _).
  fold c in Harmed, Hbuf, Harm, Hlen.
  assert (Hiff : buffer c = [] <-> timer c = None).
  { split; intro H.
    - destruct (timer c) as [h|] eqn:Ht; [|reflexivity].
      exfalso. apply Hbuf; [discriminate|exact H].
    - destruct (buffer c) as [|r buf] eqn:Hb; [reflexivity|].
      exfalso. apply Harm; [discriminate|exact H]. }
  split; [exact Hiff|]. split.
  - rewrite Hiff, Harmed. destruct (timer c); simpl; split; congruence.
  - destruct (buffer c) as [|r buf] eqn:Hb; [simpl; lia|].
    assert (H : r :: buf <> []) by discriminate. specialize (Hlen H). lia.
Qed.

(** A client with [batchSize = 2] after one [captureLog]: one record
    buffered, its timer armed. *)
Lemma buffered_records_are_scheduled_witness :
  let opts := mkOptions (Some "key") None None (Some 2) None None in
  let w0 := mkWorld (mkClient "key" "https://horizon-api.bylinee.com/v1/ingest"
                       "production" 2 2000 3 [] None) [] 0%nat [] [] in
  let s := spawn (captureLog info "a" [] "t") (mkSystem w0 []) in
  List.length (buffer (client (world s))) = 1%nat /\
  (buffer (client (world s)) = [] <-> timer (client (world s)) = None) /\
  (buffer (client (world s)) = [] <-> armed (world s) = []) /\
  Z.of_nat (List.length (buffer (client (world s)))) < 2.
Proof.
  intros opts w0 s. split; [reflexivity|].
  apply (buffered_records_are_scheduled opts s).
  apply (reach_step opts (mkSystem w0 [])).
  - apply reach_boot. reflexivity.
  - apply step_captureLog.
Defined.

(** X7. Every request that the process has made, in any state it reaches,
    went to the URL and carried the key that the client was constructed
    with, and its body held at least one record and at most [batchSize]
    records (exactly one, if [batchSize] is not positive): no empty batch is
    ever sent, and none above the batch size. *)
Theorem every_request_is_well_formed (opts : HorizonClientOptions)
    (c : HorizonClient) (s : System) (url key : string)
    (body : list LogRecord) :
  new_HorizonClient opts = Instance c ->
  reachable opts s ->
  In (EvFetch url key body) (trace (world s)) ->
  url = ingestUrl c /\ key = apiKey c /\ body <> [] /\
  Z.of_nat (List.length body) <= Z.max 1 (batchSize c).
Proof.
  intros Hnew Hreach Hin.
  destruct (reachable_SysTidy opts c s Hnew Hreach)
    as [((Hcfg & _) & _ & _ & Hreq) _].
  apply config_fields in Hcfg. destruct Hcfg as (Hk & Hu & Hb & _).
  rewrite Forall_forall in Hreq. specialize (Hreq _ Hin). simpl in Hreq.
  rewrite Hk, Hu, Hb in Hreq. exact Hreq.
Qed.

(** A client with [batchSize = 1] after one [captureLog]: its one request
    carries that one record to the default URL. *)
Lemma every_request_is_well_formed_witness :
  let opts := mkOptions (Some "key") None None (Some 1) None None in
  let c := mkClient "key" "https://horizon-api.bylinee.com/v1/ingest"
             "production" 1 2000 3 [] None in
  let s := spawn (captureLog info "a" [] "t")
             (mkSystem (mkWorld c [] 0%nat [] []) []) in
  let body := [mkLogRecord info "a" [("sdk_env", JString "production")] "t"] in
  trace (world s) =
    [EvFetch "https://horizon-api.bylinee.com/v1/ingest" "key" body] /\
  body <> [] /\ Z.of_nat (List.length body) <= 1.
Proof.
  intros opts c s body. split; [reflexivity|].
  assert (Hreach : reachable opts s).
  { apply (reach_step opts (mkSystem (mkWorld c [] 0%nat [] []) [])).
    - apply reach_boot. reflexivity.
    - apply step_captureLog. }
  destruct (every_request_is_well_formed opts c s
              "https://horizon-api.bylinee.com/v1/ingest" "key" body
              eq_refl Hreach (or_introl eq_refl)) as (_ & _ & Hne & Hsz).
  split; [exact Hne|exact Hsz].
Defined.

(** * The logger transports *)

(** ** Running a transport *)

Lemma jrun_bind_job {A B} (f : A -> TM B) (net : nat -> Answer) (t : Job A) :
  forall i w,
    (let (w1, t1) := jbind_job t f w in jrun t1 net i w1) =
    jthen (jrun t net i w) f net.
Proof.
  induction t as [a|e|url key body k IH|k IH] using Job_induction;
    intros i w; try reflexivity.
  - simpl. specialize (IH (net i) w (S i)).
    destruct (k (net i) w) as [w' t']. symmetry. rewrite <- IH. reflexivity.
  - simpl. specialize (IH w i).
    destruct (k w) as [w' t']. symmetry. rewrite <- IH. reflexivity.
Qed.

Lemma jexec_bind {A B} (m : TM A) (f : A -> TM B) net i w :
  jexec_from (jbind m f) net i w = jthen (jexec_from m net i w) f net.
Proof.
  unfold jexec_from, jbind. destruct (m w) as [w' t]. apply jrun_bind_job.
Qed.

Lemma tlogs_nil w : tlogs [] w = w.
Proof. destruct w; unfold tlogs; simpl. now rewrite app_nil_r. Qed.

Lemma tlogs_app evs1 evs2 w : tlogs evs2 (tlogs evs1 w) = tlogs (evs1 ++ evs2) w.
Proof. unfold tlogs; simpl. now rewrite app_assoc. Qed.

Lemma bodies_app evs1 evs2 : bodies (evs1 ++ evs2) = bodies evs1 ++ bodies evs2.
Proof.
  induction evs1 as [|e evs1 IH]; simpl; [reflexivity|].
  destruct e; simpl; rewrite ?IH, <- ?app_assoc; reflexivity.
Qed.

Lemma requests_app evs1 evs2 :
  requests (evs1 ++ evs2) = requests evs1 ++ requests evs2.
Proof. apply filter_app. Qed.


Lemma pino_lines_quiet r :
  requests (pino_lines r) = [] /\ bodies (pino_lines r) = [] /\
  (List.length (pino_lines r) <= 1)%nat.
Proof.
  destruct r as [s b|e]; simpl; [|repeat split; lia].
  destruct (ok s); [repeat split; simpl; lia|].
  destruct b; repeat split; simpl; lia.
Qed.

(** ** The flush of the Winston transport *)


Lemma winston_flush_suspends cfg w :
  h_buffer w <> [] ->
  exists k,
    winston_flush cfg w =
    (tlog (TvFetch (t_ingestUrl cfg) (t_apiKey cfg) (h_buffer w)) (emptied w),
     OnFetch (t_ingestUrl cfg) (t_apiKey cfg) (h_buffer w) k).
Proof.
  intro H. destruct w as [buf tm ar nx tr]. simpl in H.
  destruct buf as [|e buf]; [congruence|].
  unfold winston_flush, emptied, tlog.
  destruct tm as [h|]; unfold jbind, jcatch, heap; simpl;
    eexists; rewrite ?app_nil_r; reflexivity.
Qed.




(** ** [log] of the Winston transport *)

Lemma winston_log_unfold cfg inf now w :
  let w1 := added (winston_entry inf now) (tlog (TvSetImmediateLogged inf) w) in
  winston_log cfg inf now w =
  if Z.of_nat (List.length (h_buffer w ++ [winston_entry inf now])) >=?
     t_batchSize cfg
  then (tlog TvCallback (fst (winston_flush cfg w1)),
        Some (snd (winston_flush cfg w1)))
  else (tlog TvCallback
          (held cfg (winston_entry inf now) (tlog (TvSetImmediateLogged inf) w)),
        None).
Proof.
  intro w1. unfold winston_log. fold (winston_entry inf now).
  change (mkHeap
            (h_buffer (tlog (TvSetImmediateLogged inf) w) ++
             [winston_entry inf now])
            (h_timer (tlog (TvSetImmediateLogged inf) w))
            (h_armed (tlog (TvSetImmediateLogged inf) w))
            (h_next (tlog (TvSetImmediateLogged inf) w))
            (h_trace (tlog (TvSetImmediateLogged inf) w))) with w1.
  change (h_buffer w1) with (h_buffer w ++ [winston_entry inf now]).
  destruct (Z.of_nat _ >=? _).
  - destruct (winston_flush cfg w1) as [w' t]. reflexivity.
  - unfold held. change (h_timer w1) with (h_timer w).
    change (h_timer (tlog (TvSetImmediateLogged inf) w)) with (h_timer w).
    destruct (h_timer w) eqn:Ht; [|reflexivity].
    unfold w1, added. cbn [h_timer tlog]. rewrite Ht. reflexivity.
Qed.

Lemma added_nonempty e w : h_buffer (added e w) <> [].
Proof. simpl. destruct (h_buffer w); discriminate. Qed.

Lemma armed_emptied w :
  h_armed w = timers_of (h_timer w) -> h_armed (emptied w) = [].
Proof.
  unfold emptied. simpl. intro H. rewrite H.
  destruct (h_timer w) as [h|]; simpl; [now rewrite Nat.eqb_refl|reflexivity].
Qed.

(** X9. [log] of the Winston transport never waits for the network. It
    schedules the ['logged'] event, pushes the entry and calls [callback]
    as its last act, once. When the entry brings the buffer to the batch
    size, the request for the whole buffer, the new entry last, is made
    before [callback] and left pending, with the buffer empty and no timer
    armed; below the batch size no request is made and the one timer stays
    or is armed. *)
Theorem winston_log_never_waits (cfg : TransportConfig) (inf : Obj)
    (now : string) (w : Heap) :
  h_armed w = timers_of (h_timer w) ->
  let entry := winston_entry inf now in
  let batch := h_buffer w ++ [entry] in
  let w' := fst (winston_log cfg inf now w) in
  let started := snd (winston_log cfg inf now w) in
  (Z.of_nat (List.length batch) >= t_batchSize cfg ->
   h_trace w' =
     h_trace w ++ [TvSetImmediateLogged inf] ++
     match h_timer w with Some h => [TvClearTimeout h] | None => [] end ++
     [TvFetch (t_ingestUrl cfg) (t_apiKey cfg) batch; TvCallback] /\
   h_buffer w' = [] /\ h_timer w' = None /\ h_armed w' = [] /\
   exists t, started = Some t /\ awaited_batch t = Some batch) /\
  (Z.of_nat (List.length batch) < t_batchSize cfg ->
   started = None /\
   h_buffer w' = batch /\
   h_trace w' =
     h_trace w ++ [TvSetImmediateLogged inf] ++
     match h_timer w with
     | Some _ => []
     | None => [TvSetTimeout (h_next w) (t_flushInterval cfg)]
     end ++ [TvCallback] /\
   h_timer w' =
     Some match h_timer w with Some h => h | None => h_next w end /\
   h_armed w' = [match h_timer w with Some h => h | None => h_next w end]).
Proof.
  intros Harmed entry batch w' started. unfold w', started.
  rewrite winston_log_unfold. cbv zeta. fold entry. fold batch.
  split; intro Hlen.
  - assert (Hge : (Z.of_nat (List.length batch) >=? t_batchSize cfg) = true)
      by (apply Z.geb_le; lia).
    rewrite Hge. cbn [fst snd].
    destruct (winston_flush_suspends cfg
                (added entry (tlog (TvSetImmediateLogged inf) w))
                (added_nonempty _ _)) as [k Hk].
    rewrite Hk. cbn [fst snd].
    split; [|split; [reflexivity|split; [reflexivity|split]]].
    + cbn. destruct (h_timer w); cbn; rewrite <- !app_assoc; reflexivity.
    + cbn. rewrite Harmed. destruct (h_timer w); cbn;
        [now rewrite Nat.eqb_refl|reflexivity].
    + eexists. split; reflexivity.
  - assert (Hge : (Z.of_nat (List.length batch) >=? t_batchSize cfg) = false).
    { rewrite Z.geb_leb. apply Z.leb_gt. lia. }
    rewrite Hge. cbn [fst snd]. split; [reflexivity|].
    unfold held. cbn. rewrite Harmed.
    destruct (h_timer w); cbn; rewrite <- ?app_assoc; repeat split.
Qed.

(** A transport with [batchSize = 2] and one entry buffered: the second
    [log] makes the request for both entries and then calls back. *)
Lemma winston_log_never_waits_witness :
  let cfg := mkTransportConfig "k" "u" 2 2000 in
  let e1 := mkEntry (Mapped info) (VString "a") [] "t1" in
  let inf := [("level", VString "warn"); ("message", VString "b")] in
  let e2 := mkEntry (Mapped warn) (VString "b") [] "t2" in
  let w := mkHeap [e1] (Some 0%nat) [0%nat] 1%nat [] in
  let w' := fst (winston_log cfg inf "t2" w) in
  h_trace w' =
    [TvSetImmediateLogged inf; TvClearTimeout 0%nat;
     TvFetch "u" "k" [e1; e2]; TvCallback] /\
  h_buffer w' = [] /\ h_timer w' = None /\ h_armed w' = [] /\
  exists t,
    snd (winston_log cfg inf "t2" w) = Some t /\
    awaited_batch t = Some [e1; e2].
Proof.
  intros cfg e1 inf e2 w w'.
  apply (proj1 (winston_log_never_waits cfg inf "t2" w eq_refl)).
  simpl. lia.
Defined.

(** ** The entry of the Winston transport *)

Lemma prop_without_in k ks o : In k ks -> prop k (without ks o) = VUndefined.
Proof.
  intro Hin. induction o as [|[k' v] o IH]; simpl; [reflexivity|].
  destruct (existsb (String.eqb k') ks) eqn:E; simpl; [exact IH|].
  destruct (String.eqb_spec k' k) as [->|Hk]; [|exact IH].
  exfalso. assert (H : existsb (String.eqb k) ks = true).
  { apply existsb_exists. exists k. split; [exact Hin|apply String.eqb_refl]. }
  congruence.
Qed.

Lemma prop_without_out k ks o :
  ~ In k ks -> prop k (without ks o) = prop k o.
Proof.
  intro Hout. induction o as [|[k' v] o IH]; simpl; [reflexivity|].
  destruct (existsb (String.eqb k') ks) eqn:E; simpl.
  - destruct (String.eqb_spec k' k) as [->|Hk]; [|exact IH].
    exfalso. apply existsb_exists in E. destruct E as (x & Hx & Hkx).
    apply String.eqb_eq in Hkx. subst. contradiction.
  - destruct (String.eqb k' k); [reflexivity|exact IH].
Qed.

Lemma winston_level_range v :
  (forall s, v = VString s -> ~ In s object_prototype_members) ->
  exists l, winston_level v = Mapped l /\ l <> fatal.
Proof.
  intro Hv. destruct v as [| |b|n|s]; cbn [winston_level];
    try (exists info; split; [reflexivity|discriminate]).
  repeat match goal with
         | |- context [if ?b then _ else _] =>
             destruct b eqn:?;
             [try (eexists; split; [reflexivity|discriminate])|]
         end.
  - exfalso. apply (Hv s eq_refl).
    match goal with H : existsb _ _ = true |- _ =>
      apply existsb_exists in H; destruct H as (x & Hx & Hsx) end.
    apply String.eqb_eq in Hsx. now subst.
  - exists info. split; [reflexivity|discriminate].
Qed.

(** X10. The entry that [log] of the Winston transport puts at the tail of
    the buffer, or of the batch it sends: its level is one of [error],
    [warn], [info] and [debug], never [fatal] ([http] becomes [info],
    [verbose] and [silly] become [debug], a missing or unknown level
    [info]), unless the level names a member of [Object.prototype]; its
    message is the message of the info, or the empty string when that is
    missing or falsy; its metadata has no [level] and no [message] and
    every other property of the info with its value. *)
Theorem winston_entry_is_normalised (cfg : TransportConfig) (inf : Obj)
    (now : string) (w : Heap) :
  exists entry,
    (h_buffer (fst (winston_log cfg inf now w)) = h_buffer w ++ [entry] \/
     exists t,
       snd (winston_log cfg inf now w) = Some t /\
       awaited_batch t = Some (h_buffer w ++ [entry])) /\
    entry_timestamp entry = now /\
    ((forall s, prop "level" inf = VString s ->
                ~ In s object_prototype_members) ->
     exists l, entry_level entry = Mapped l /\ l <> fatal) /\
    (prop "level" inf = VString "http" -> entry_level entry = Mapped info) /\
    (prop "level" inf = VString "verbose" \/ prop "level" inf = VString "silly" ->
     entry_level entry = Mapped debug) /\
    (prop "level" inf = VUndefined -> entry_level entry = Mapped info) /\
    (truthy (prop "message" inf) = true ->
     entry_message entry = prop "message" inf) /\
    (truthy (prop "message" inf) = false ->
     entry_message entry = VString "") /\
    prop "level" (entry_metadata entry) = VUndefined /\
    prop "message" (entry_metadata entry) = VUndefined /\
    (forall k, k <> "level" -> k <> "message" ->
               prop k (entry_metadata entry) = prop k inf).
Proof.
  exists (winston_entry inf now). split.
  - rewrite winston_log_unfold. cbv zeta.
    destruct (Z.of_nat _ >=? _); cbn [fst snd].
    + right.
      destruct (winston_flush_suspends cfg
                  (added (winston_entry inf now)
                     (tlog (TvSetImmediateLogged inf) w))
                  (added_nonempty _ _)) as [k Hk].
      rewrite Hk. eexists. split; reflexivity.
    + left. unfold held. cbn. destruct (h_timer w); reflexivity.
  - split; [reflexivity|]. split; [apply winston_level_range|].
    split; [intro H; simpl; now rewrite H|].
    split; [intros [H|H]; simpl; now rewrite H|].
    split; [intro H; simpl; now rewrite H|].
    split; [intro H; simpl; now rewrite H|].
    split; [intro H; simpl; now rewrite H|].
    split; [apply prop_without_in; now left|].
    split; [apply prop_without_in; right; now left|].
    intros k Hl Hm. apply prop_without_out.
    intros [H|[H|[]]]; congruence.
Qed.

(** ** A run of [log] calls *)

Lemma Settled_heap_emptied w :
  h_armed w = timers_of (h_timer w) -> Settled_heap (emptied w).
Proof.
  intro H. split; [now rewrite armed_emptied|]. simpl. tauto.
Qed.

Lemma Settled_heap_held cfg e w :
  h_armed w = timers_of (h_timer w) -> Settled_heap (held cfg e w).
Proof.
  intro H. unfold held, Settled_heap.
  destruct (h_timer w) as [h|] eqn:Ht; cbn.
  - split; [now rewrite H|].
    split; [destruct (h_buffer w); discriminate|discriminate].
  - rewrite H. split; [reflexivity|].
    split; [destruct (h_buffer w); discriminate|discriminate].
Qed.

Lemma winston_log_conserves cfg inf now w :
  Settled_heap w ->
  let w' := fst (winston_log cfg inf now w) in
  Settled_heap w' /\
  bodies (h_trace w') ++ h_buffer w' =
    bodies (h_trace w) ++ h_buffer w ++ [winston_entry inf now] /\
  callbacks (h_trace w') = callbacks (h_trace w) ++ [TvCallback] /\
  (Z.of_nat (List.length (h_buffer w')) < Z.max 1 (t_batchSize cfg)) /\
  (List.length (requests (h_trace w')) =
   List.length (requests (h_trace w)) +
   match snd (winston_log cfg inf now w) with Some _ => 1 | None => 0 end)%nat.
Proof.
  intros [Harmed Hiff] w'. unfold w'. rewrite winston_log_unfold. cbv zeta.
  destruct (Z.of_nat _ >=? _) eqn:Hge; cbn [fst snd].
  - destruct (winston_flush_suspends cfg
                (added (winston_entry inf now)
                   (tlog (TvSetImmediateLogged inf) w))
                (added_nonempty _ _)) as [k Hk].
    rewrite Hk. cbn [fst].
    split; [apply (Settled_heap_emptied
                     (added (winston_entry inf now)
                        (tlog (TvSetImmediateLogged inf) w))); exact Harmed|].
    cbn. unfold callbacks, requests.
    rewrite !bodies_app, !filter_app, !length_app.
    destruct (h_timer w); cbn; rewrite ?app_nil_r, <- ?app_assoc;
      repeat split; try reflexivity; try lia.
  - rewrite Z.geb_leb in Hge. apply Z.leb_gt in Hge.
    split; [apply (Settled_heap_held cfg _
                     (tlog (TvSetImmediateLogged inf) w)); exact Harmed|].
    unfold held. cbn. unfold callbacks, requests.
    destruct (h_timer w); cbn;
      rewrite ?bodies_app, ?filter_app, ?length_app; cbn;
      rewrite ?app_nil_r, <- ?app_assoc; repeat split;
      try reflexivity; try lia;
      rewrite length_app in Hge; cbn [List.length] in Hge; lia.
Qed.

(** X11. Any run of [log] calls on the Winston transport, started between
    flushes: the entries already sent followed by the entries still
    buffered are, in order and without loss or repetition, what they were
    before followed by the entries of the calls; [callback] was called once
    per call; one flush was started per request made; and afterwards a
    timer is armed exactly when the buffer is not empty, the armed timer is
    the one the handle names, and the buffer is below the batch size. *)
Theorem winston_logs_lose_nothing (cfg : TransportConfig)
    (infos : list (Obj * string)) (w : Heap) :
  Settled_heap w ->
  let w' := fst (winston_logs cfg infos w) in
  Settled_heap w' /\
  bodies (h_trace w') ++ h_buffer w' =
    bodies (h_trace w) ++ h_buffer w ++
    map (fun i => winston_entry (fst i) (snd i)) infos /\
  callbacks (h_trace w') =
    callbacks (h_trace w) ++ repeat TvCallback (List.length infos) /\
  (infos <> [] ->
   Z.of_nat (List.length (h_buffer w')) < Z.max 1 (t_batchSize cfg)) /\
  (List.length (requests (h_trace w')) =
   List.length (requests (h_trace w)) +
   List.length (snd (winston_logs cfg infos w)))%nat.
Proof.
  revert w. induction infos as [|[inf now] rest IH]; intros w Hw w'.
  - unfold w'. simpl. rewrite !app_nil_r.
    repeat split; try apply Hw; try congruence. lia.
  - unfold w'. cbn [winston_logs].
    pose proof (winston_log_conserves cfg inf now w Hw)
      as (Hw1 & Hb1 & Hc1 & Hs1 & Hr1).
    destruct (winston_log cfg inf now w) as [w1 started]. cbn [fst snd] in *.
    specialize (IH w1 Hw1). cbv zeta in IH.
    assert (Hsz :
      Z.of_nat (List.length (h_buffer (fst (winston_logs cfg rest w1))))
        < Z.max 1 (t_batchSize cfg)).
    { destruct rest as [|x rest']; [exact Hs1|].
      apply IH. discriminate. }
    destruct IH as (Hw2 & Hb2 & Hc2 & _ & Hr2).
    destruct (winston_logs cfg rest w1) as [w2 jobs]. cbn [fst snd] in *.
    split; [exact Hw2|]. split.
    { rewrite Hb2. cbn [map fst snd].
      rewrite app_assoc, Hb1, <- !app_assoc. reflexivity. }
    split.
    { rewrite Hc2, Hc1, <- app_assoc. reflexivity. }
    split; [intros _; exact Hsz|].
    rewrite Hr2, Hr1. destruct started; cbn [List.length]; lia.
Qed.

(** Three [log] calls on a fresh transport with [batchSize = 2]: the first
    two entries went out in one request, the third is buffered. *)
Lemma winston_logs_lose_nothing_witness :
  let cfg := mkTransportConfig "k" "u" 2 2000 in
  let w := mkHeap [] None [] 0%nat [] in
  let infos :=
    [([("level", VString "info"); ("message", VString "a")], "t1");
     ([("level", VString "http"); ("message", VString "b")], "t2");
     ([("level", VString "silly")], "t3")] in
  let w' := fst (winston_logs cfg infos w) in
  bodies (h_trace w') =
    [mkEntry (Mapped info) (VString "a") [] "t1";
     mkEntry (Mapped info) (VString "b") [] "t2"] /\
  h_buffer w' = [mkEntry (Mapped debug) (VString "") [] "t3"] /\
  bodies (h_trace w') ++ h_buffer w' =
    map (fun i => winston_entry (fst i) (snd i)) infos.
Proof.
  intros cfg w infos w'.
  split; [reflexivity|]. split; [reflexivity|].
  apply (proj1 (proj2 (winston_logs_lose_nothing cfg infos w
                         (conj eq_refl (conj (fun _ => eq_refl)
                                          (fun _ => eq_refl)))))).
Defined.

(** ** The flush of the Pino transport *)


Lemma pino_flush_suspends cfg w :
  h_buffer w <> [] ->
  exists k,
    pino_flush cfg w =
    (tlog (TvFetch (t_ingestUrl cfg) (t_apiKey cfg) (h_buffer w)) (emptied w),
     OnFetch (t_ingestUrl cfg) (t_apiKey cfg) (h_buffer w) k).
Proof.
  intro H. destruct w as [buf tm ar nx tr]. simpl in H.
  destruct buf as [|e buf]; [congruence|].
  unfold pino_flush, emptied, tlog.
  destruct tm as [h|]; unfold jbind, jcatch, heap; simpl;
    eexists; rewrite ?app_nil_r; reflexivity.
Qed.

Lemma pino_flush_run cfg net i w :
  h_buffer w <> [] ->
  jexec_from (pino_flush cfg) net i w =
  (tlogs (TvFetch (t_ingestUrl cfg) (t_apiKey cfg) (h_buffer w)
            :: pino_lines (net i)) (emptied w),
   Settled tt, S i).
Proof.
  intro H. destruct w as [buf tm ar nx tr]. simpl in H.
  destruct buf as [|e buf]; [congruence|].
  unfold jexec_from, pino_flush, emptied, tlogs.
  destruct tm as [h|]; unfold jbind, jcatch, heap; simpl;
    (destruct (net i) as [s b|err]; simpl;
     [destruct (ok s); simpl; [|destruct b; simpl]|]);
    unfold tlog; simpl; rewrite <- ?app_assoc, ?app_nil_r; reflexivity.
Qed.



(** ** One object of the Pino stream *)

Lemma pino_write_unfold cfg iso obj now w :
  pino_write cfg iso (Some obj) now w =
  match pino_time iso obj now with
  | None => (w, Raised "Invalid time value")
  | Some t =>
      if Z.of_nat (List.length (h_buffer w ++ [pino_entry obj t])) >=?
         t_batchSize cfg
      then pino_flush cfg (added (pino_entry obj t) w)
      else (held cfg (pino_entry obj t) w, Settled tt)
  end.
Proof.
  unfold pino_write, pino_time.
  assert (Hgo : forall t,
    (timestamp <-- jret t ;;
     this <-- heap ;;
     _ <-- jset_buffer
             (h_buffer this ++
              [mkEntry (pino_level (prop "level" obj))
                 (if truthy (prop "msg" obj) then prop "msg" obj
                  else VString "No message")
                 (without ["level"; "msg"; "time"; "v"] obj) timestamp]) ;;
     this0 <-- heap ;;
     (if Z.of_nat (List.length (h_buffer this0)) >=? t_batchSize cfg
      then pino_flush cfg
      else
        match h_timer this0 with
        | Some _ => jret tt
        | None =>
            h <-- jsetTimeout (t_flushInterval cfg) ;; jset_timer (Some h)
        end)) w =
    (if Z.of_nat (List.length (h_buffer w ++ [pino_entry obj t])) >=?
        t_batchSize cfg
     then pino_flush cfg (added (pino_entry obj t) w)
     else (held cfg (pino_entry obj t) w, Settled tt))).
  { intro t. unfold jbind at 1. unfold jret at 1. cbn [jbind_job].
    unfold jbind at 1. unfold heap at 1. cbn [jbind_job].
    unfold jbind at 1. unfold jset_buffer at 1. cbn [jbind_job].
    unfold jbind at 1. unfold heap at 1. cbn [jbind_job h_buffer].
    fold (pino_entry obj t). fold (added (pino_entry obj t) w).
    destruct (Z.of_nat _ >=? _); [reflexivity|].
    unfold held, added. cbn [h_timer].
    destruct w as [buf tm ar nx tr]. destruct tm; reflexivity. }
  destruct (truthy (prop "time" obj)).
  - destruct (iso (prop "time" obj)) as [t|]; [apply Hgo|reflexivity].
  - apply Hgo.
Qed.

Lemma pino_write_run cfg iso obj now t net i w :
  pino_time iso obj now = Some t ->
  jexec_from (pino_write cfg iso (Some obj) now) net i w =
  if Z.of_nat (List.length (h_buffer w ++ [pino_entry obj t])) >=?
     t_batchSize cfg
  then (tlogs (TvFetch (t_ingestUrl cfg) (t_apiKey cfg)
                 (h_buffer w ++ [pino_entry obj t]) :: pino_lines (net i))
          (emptied (added (pino_entry obj t) w)),
        Settled tt, S i)
  else (held cfg (pino_entry obj t) w, Settled tt, i).
Proof.
  intro Ht. unfold jexec_from at 1. rewrite pino_write_unfold, Ht.
  destruct (Z.of_nat _ >=? _); [|reflexivity].
  apply (pino_flush_run cfg net i (added (pino_entry obj t) w)).
  apply added_nonempty.
Qed.

(** X13. The entry that the Pino transport makes of an object and leaves
    at the tail of its buffer, or of the batch it sends: the numeric level
    is mapped (10 and 20 to [debug], 30 to [info], 40 to [warn], 50 to
    [error], 60 to [fatal], any other number and a missing level to
    [info]); the message is [msg], or ['No message'] when [msg] is missing
    or falsy; the timestamp is the date of [time], or the clock when [time]
    is missing or falsy; the metadata has none of [level], [msg], [time] and
    [v], and every other property of the object with its value. *)
Theorem pino_entry_is_normalised (cfg : TransportConfig)
    (iso : Value -> option string) (obj : Obj) (now : string) (w : Heap)
    (t : string) :
  pino_time iso obj now = Some t ->
  exists entry,
    (pino_write cfg iso (Some obj) now w =
       (held cfg entry w, Settled tt) /\
     h_buffer (held cfg entry w) = h_buffer w ++ [entry]
     \/
     awaited_batch (snd (pino_write cfg iso (Some obj) now w)) =
       Some (h_buffer w ++ [entry])) /\
    entry_timestamp entry = t /\
    (truthy (prop "time" obj) = false -> t = now) /\
    (truthy (prop "time" obj) = true -> iso (prop "time" obj) = Some t) /\
    (forall n, prop "level" obj = VNumber n ->
       entry_level entry =
       Mapped (if (n =? 10) || (n =? 20) then debug
               else if n =? 30 then info
               else if n =? 40 then warn
               else if n =? 50 then error
               else if n =? 60 then fatal
               else info)) /\
    (prop "level" obj = VUndefined -> entry_level entry = Mapped info) /\
    (truthy (prop "msg" obj) = true -> entry_message entry = prop "msg" obj) /\
    (truthy (prop "msg" obj) = false ->
     entry_message entry = VString "No message") /\
    (forall k, In k ["level"; "msg"; "time"; "v"] ->
               prop k (entry_metadata entry) = VUndefined) /\
    (forall k, ~ In k ["level"; "msg"; "time"; "v"] ->
               prop k (entry_metadata entry) = prop k obj).
Proof.
  intro Ht. exists (pino_entry obj t). split.
  - rewrite pino_write_unfold, Ht.
    destruct (Z.of_nat _ >=? _).
    + right.
      destruct (pino_flush_suspends cfg (added (pino_entry obj t) w)
                  (added_nonempty _ _)) as [k Hk].
      rewrite Hk. reflexivity.
    + left. split; [reflexivity|].
      unfold held. destruct (h_timer w); reflexivity.
  - split; [reflexivity|].
    unfold pino_time in Ht.
    split; [intro H; rewrite H in Ht; congruence|].
    split; [intro H; now rewrite H in Ht|].
    split.
    { intros n Hn. simpl. rewrite Hn. simpl.
      destruct (n =? 10); [reflexivity|].
      destruct (n =? 20); [reflexivity|]. simpl.
      destruct (n =? 30); [reflexivity|].
      destruct (n =? 40); [reflexivity|].
      destruct (n =? 50); [reflexivity|].
      destruct (n =? 60); reflexivity. }
    split; [intro H; simpl; now rewrite H|].
    split; [intro H; simpl; now rewrite H|].
    split; [intro H; simpl; now rewrite H|].
    split; [intros k Hk; now apply prop_without_in|].
    intros k Hk. now apply prop_without_out.
Qed.

(** A Pino object at level 10 with a pid: the entry is at [debug], stamped
    with the date of its time, and keeps only the pid as metadata. *)
Lemma pino_entry_is_normalised_witness :
  let cfg := mkTransportConfig "k" "u" 50 2000 in
  let iso := fun v : Value =>
               match v with VNumber _ => Some "2024-01-01T00:00:00.000Z"
                          | _ => None end in
  let obj := [("level", VNumber 10); ("time", VNumber 1704067200000);
              ("pid", VNumber 7); ("msg", VString "hi"); ("v", VNumber 1)] in
  let w := mkHeap [] None [] 0%nat [] in
  h_buffer (fst (pino_write cfg iso (Some obj) "clock" w)) =
    [mkEntry (Mapped debug) (VString "hi") [("pid", VNumber 7)]
       "2024-01-01T00:00:00.000Z"].
Proof.
  intros cfg iso obj w.
  destruct (pino_entry_is_normalised cfg iso obj "clock" w
              "2024-01-01T00:00:00.000Z" eq_refl)
    as (entry & _ & _).
  reflexivity.
Defined.

(** ** The stream of the Pino transport *)

Lemma pino_stream_cons cfg iso item now rest net i w :
  jexec_from (pino_stream cfg iso ((item, now) :: rest)) net i w =
  jthen (jexec_from (pino_write cfg iso item now) net i w)
    (fun _ => pino_stream cfg iso rest) net.
Proof.
  cbn [pino_stream].
  apply (jexec_bind (pino_write cfg iso item now)
           (fun _ => pino_stream cfg iso rest)).
Qed.

Lemma Settled_heap_tlogs evs w : Settled_heap w -> Settled_heap (tlogs evs w).
Proof. intro H. exact H. Qed.

(** X14. The stream function of the Pino transport, run over any items
    whose times are dates against any network, from a heap between flushes:
    it ends normally; falsy items are skipped; the entries sent followed by
    the entries still buffered are, in order and without loss or
    repetition, what they were before followed by the entries of the
    objects; it made one request per batch, none twice; and afterwards a
    timer is armed exactly when the buffer is not empty. *)
Theorem pino_stream_loses_nothing (cfg : TransportConfig)
    (iso : Value -> option string) (items : list (option Obj * string))
    (net : nat -> Answer) (i : nat) (w : Heap) :
  times_valid iso items ->
  Settled_heap w ->
  exists w' i',
    jexec_from (pino_stream cfg iso items) net i w = (w', Settled tt, i') /\
    Settled_heap w' /\
    bodies (h_trace w') ++ h_buffer w' =
      bodies (h_trace w) ++ h_buffer w ++ pino_entries iso items /\
    (List.length (requests (h_trace w')) =
     List.length (requests (h_trace w)) + (i' - i))%nat /\
    (i <= i')%nat.
Proof.
  revert i w. induction items as [|[item now] rest IH]; intros i w Hvalid Hw.
  - exists w, i. simpl. rewrite !app_nil_r.
    repeat split; try apply Hw; lia.
  - inversion Hvalid as [|? ? Hitem Hrest]; subst. cbn [fst snd] in Hitem.
    rewrite pino_stream_cons.
    destruct item as [obj|].
    + destruct (pino_time iso obj now) as [t|] eqn:Ht; [|congruence].
      rewrite (pino_write_run cfg iso obj now t net i w Ht).
      cbn [pino_entries]. rewrite Ht.
      destruct (Z.of_nat _ >=? _); unfold jthen.
      * set (w1 := tlogs _ _).
        assert (Hw1 : Settled_heap w1).
        { apply Settled_heap_tlogs.
          apply (Settled_heap_emptied (added (pino_entry obj t) w)).
          apply Hw. }
        destruct (IH (S i) w1 Hrest Hw1) as (w' & i' & Hrun & Hw' & Hb & Hr & Hi).
        exists w', i'. split; [exact Hrun|]. split; [exact Hw'|].
        destruct (pino_lines_quiet (net i)) as (Hq1 & Hq2 & _).
        split; [|split; [|lia]].
        -- rewrite Hb. unfold w1. cbn.
           rewrite !bodies_app. cbn. rewrite Hq2.
           destruct (h_timer w); cbn; rewrite ?app_nil_r, <- ?app_assoc;
             reflexivity.
        -- rewrite Hr. unfold w1. cbn. unfold requests in *.
           rewrite !filter_app, !length_app. cbn. rewrite Hq1.
           destruct (h_timer w); cbn; lia.
      * set (w1 := held cfg (pino_entry obj t) w).
        assert (Hw1 : Settled_heap w1)
          by (apply Settled_heap_held; apply Hw).
        destruct (IH i w1 Hrest Hw1) as (w' & i' & Hrun & Hw' & Hb & Hr & Hi).
        exists w', i'. split; [exact Hrun|]. split; [exact Hw'|].
        split; [|split; [|lia]].
        -- rewrite Hb. unfold w1, held.
           destruct (h_timer w); cbn; rewrite ?bodies_app; cbn;
             rewrite ?app_nil_r, <- ?app_assoc; reflexivity.
        -- rewrite Hr. unfold w1, held, requests.
           destruct (h_timer w); cbn; rewrite ?filter_app, ?length_app; cbn;
             lia.
    + change (jexec_from (pino_write cfg iso None now) net i w)
        with (w, @Settled unit tt, i).
      unfold jthen. cbn [pino_entries]. apply IH; assumption.
Qed.

(** Three items with [batchSize = 2], the second falsy: the two objects go
    out in one request, in order. *)
Lemma pino_stream_loses_nothing_witness :
  let cfg := mkTransportConfig "k" "u" 2 2000 in
  let iso := fun _ : Value => Some "date" in
  let items :=
    [(Some [("level", VNumber 30); ("msg", VString "a")], "t1");
     (None, "t2");
     (Some [("level", VNumber 50); ("msg", VString "b")], "t3")] in
  let w := mkHeap [] None [] 0%nat [] in
  exists w' i',
    jexec_from (pino_stream cfg iso items) (fun _ => Answered 200 BodyNull)
      0 w = (w', Settled tt, i') /\
    bodies (h_trace w') ++ h_buffer w' =
      [mkEntry (Mapped info) (VString "a") [] "t1";
       mkEntry (Mapped error) (VString "b") [] "t3"].
Proof.
  intros cfg iso items w.
  destruct (pino_stream_loses_nothing cfg iso items
              (fun _ => Answered 200 BodyNull) 0 w)
    as (w' & i' & Hrun & _ & Hb & _).
  - repeat constructor; discriminate.
  - split; [reflexivity|]. split; reflexivity.
  - exists w', i'. split; [exact Hrun|exact Hb].
Defined.

(** X15. An object whose [time] is truthy and is no date makes the stream
    function of the Pino transport throw, at that object: nothing of it is
    buffered, the heap is as the objects before left it, and the objects
    after it are never read. *)
Theorem pino_invalid_time_ends_the_stream (cfg : TransportConfig)
    (iso : Value -> option string) (obj : Obj) (now : string)
    (rest : list (option Obj * string)) (net : nat -> Answer) (i : nat)
    (w : Heap) :
  truthy (prop "time" obj) = true ->
  iso (prop "time" obj) = None ->
  pino_write cfg iso (Some obj) now w = (w, Raised "Invalid time value") /\
  jexec_from (pino_stream cfg iso ((Some obj, now) :: rest)) net i w =
    (w, Raised "Invalid time value", i).
Proof.
  intros Htruthy Hiso.
  assert (Ht : pino_time iso obj now = None)
    by (unfold pino_time; now rewrite Htruthy).
  assert (Hw : pino_write cfg iso (Some obj) now w =
               (w, Raised "Invalid time value"))
    by (rewrite pino_write_unfold; now rewrite Ht).
  split; [exact Hw|].
  rewrite pino_stream_cons. unfold jexec_from at 1. rewrite Hw. reflexivity.
Qed.

(** An object with [time: 'yesterday'] in front of a valid one: the stream
    throws and nothing is buffered. *)
Lemma pino_invalid_time_ends_the_stream_witness :
  let cfg := mkTransportConfig "k" "u" 50 2000 in
  let iso := fun v : Value =>
               match v with VNumber _ => Some "date" | _ => None end in
  let w := mkHeap [] None [] 0%nat [] in
  jexec_from
    (pino_stream cfg iso
       [(Some [("time", VString "yesterday"); ("msg", VString "a")], "t1");
        (Some [("msg", VString "b")], "t2")])
    (fun _ => Answered 200 BodyNull) 0 w =
  (w, Raised "Invalid time value", 0%nat).
Proof.
  intros cfg iso w.
  apply (proj2 (pino_invalid_time_ends_the_stream cfg iso
                  [("time", VString "yesterday"); ("msg", VString "a")] "t1"
                  [(Some [("msg", VString "b")], "t2")]
                  (fun _ => Answered 200 BodyNull) 0 w eq_refl eq_refl)).
Defined.

(** X16. When an object brings the buffer of the Pino transport to the
    batch size, the stream function is suspended on the request for the
    whole buffer, that object last, with the buffer empty and no timer
    armed; the heap at that point is the same whatever follows in the
    stream: no later object is read before the answer. *)
Theorem pino_stream_waits_for_its_flush (cfg : TransportConfig)
    (iso : Value -> option string) (obj : Obj) (now : string)
    (rest : list (option Obj * string)) (w : Heap) (t : string) :
  pino_time iso obj now = Some t ->
  h_armed w = timers_of (h_timer w) ->
  let batch := h_buffer w ++ [pino_entry obj t] in
  Z.of_nat (List.length batch) >= t_batchSize cfg ->
  let w1 := fst (pino_stream cfg iso ((Some obj, now) :: rest) w) in
  awaited_batch (snd (pino_stream cfg iso ((Some obj, now) :: rest) w)) =
    Some batch /\
  w1 = fst (pino_stream cfg iso [(Some obj, now)] w) /\
  h_buffer w1 = [] /\ h_timer w1 = None /\ h_armed w1 = [] /\
  h_trace w1 =
    h_trace w ++
    match h_timer w with Some h => [TvClearTimeout h] | None => [] end ++
    [TvFetch (t_ingestUrl cfg) (t_apiKey cfg) batch].
Proof.
  intros Ht Harmed batch Hlen w1.
  assert (Hge : (Z.of_nat (List.length batch) >=? t_batchSize cfg) = true)
    by (apply Z.geb_le; lia).
  assert (Hstream : forall items,
    exists k,
      pino_stream cfg iso ((Some obj, now) :: items) w =
      (tlog (TvFetch (t_ingestUrl cfg) (t_apiKey cfg) batch)
         (emptied (added (pino_entry obj t) w)),
       OnFetch (t_ingestUrl cfg) (t_apiKey cfg) batch k)).
  { intro items. cbn [pino_stream]. unfold jbind at 1.
    rewrite pino_write_unfold, Ht. fold batch. rewrite Hge.
    destruct (pino_flush_suspends cfg (added (pino_entry obj t) w)
                (added_nonempty _ _)) as [k Hk].
    rewrite Hk. cbn [jbind_job]. eexists. reflexivity. }
  unfold w1.
  destruct (Hstream rest) as [k Hk]. destruct (Hstream []) as [k0 Hk0].
  rewrite Hk, Hk0. cbn [fst snd awaited_batch].
  split; [reflexivity|]. split; [reflexivity|].
  split; [reflexivity|]. split; [reflexivity|]. split.
  - cbn. rewrite Harmed. destruct (h_timer w); cbn;
      [now rewrite Nat.eqb_refl|reflexivity].
  - cbn. destruct (h_timer w); cbn; rewrite <- ?app_assoc; reflexivity.
Qed.

(** [batchSize = 1]: the first object is requested and the second is not
    read yet. *)
Lemma pino_stream_waits_for_its_flush_witness :
  let cfg := mkTransportConfig "k" "u" 1 2000 in
  let iso := fun _ : Value => Some "date" in
  let w := mkHeap [] None [] 0%nat [] in
  let e := mkEntry (Mapped info) (VString "a") [] "t1" in
  let run :=
    pino_stream cfg iso
      [(Some [("msg", VString "a")], "t1"); (Some [("msg", VString "b")], "t2")]
      w in
  awaited_batch (snd run) = Some [e] /\
  h_buffer (fst run) = [] /\
  h_trace (fst run) = [TvFetch "u" "k" [e]].
Proof.
  intros cfg iso w e run.
  destruct (pino_stream_waits_for_its_flush cfg iso [("msg", VString "a")] "t1"
              [(Some [("msg", VString "b")], "t2")] w "t1" eq_refl eq_refl
              ltac:(simpl; lia))
    as (Ha & _ & Hb & _ & _ & Ht).
  split; [exact Ha|]. split; [exact Hb|exact Ht].
Defined.

(** ** Constructing the transports *)

Lemma or_default_spec {A} (x : option A) (d : A) :
  (x = None -> or_default x d = d) /\ (forall v, x = Some v -> or_default x d = v).
Proof. split; [intros ->|intros v ->]; reflexivity. Qed.

(** X17. Both transports refuse a missing or empty API key, each with its
    own message, and otherwise keep the key. They differ in their
    defaults: the Winston transport replaces a missing, empty or zero
    option ([ingestUrl], [batchSize], [flushInterval]) with
    [http://localhost:5000/v1/ingest], 50 and 2000, so that none of its
    fields is falsy; the Pino transport replaces only a missing option and
    keeps an empty URL and a zero batch size or interval as given. *)
Theorem transports_check_key_and_default (opts : TransportOptions) :
  (topt_apiKey opts = None \/ topt_apiKey opts = Some "" ->
   new_HorizonWinstonTransport opts =
     TransportThrows "Horizon API Key is required for Winston Transport" /\
   pino_options opts =
     TransportThrows "Horizon API Key is required for ingestion") /\
  (forall key,
      topt_apiKey opts = Some key -> key <> "" ->
      exists wcfg pcfg,
        new_HorizonWinstonTransport opts = Transport wcfg /\
        pino_options opts = Transport pcfg /\
        t_apiKey wcfg = key /\ t_apiKey pcfg = key /\
        defaulted (topt_ingestUrl opts) "" "http://localhost:5000/v1/ingest"
          (t_ingestUrl wcfg) /\
        defaulted (topt_batchSize opts) 0 50 (t_batchSize wcfg) /\
        defaulted (topt_flushInterval opts) 0 2000 (t_flushInterval wcfg) /\
        t_ingestUrl pcfg =
          or_default (topt_ingestUrl opts) "http://localhost:5000/v1/ingest" /\
        (topt_batchSize opts = None -> t_batchSize pcfg = 50) /\
        (forall n, topt_batchSize opts = Some n -> t_batchSize pcfg = n) /\
        (topt_flushInterval opts = None -> t_flushInterval pcfg = 2000) /\
        (forall n, topt_flushInterval opts = Some n ->
                   t_flushInterval pcfg = n)).
Proof.
  split.
  - intro Hkey.
    assert (Hf : falsy_string (topt_apiKey opts) = true)
      by (destruct Hkey as [-> | ->]; reflexivity).
    unfold new_HorizonWinstonTransport, pino_options. rewrite Hf.
    split; reflexivity.
  - intros key Hopt Hkey.
    assert (Hf : falsy_string (topt_apiKey opts) = false).
    { rewrite Hopt. simpl. destruct (String.eqb_spec key ""); congruence. }
    assert (Hor : or_string (topt_apiKey opts) "" = key).
    { rewrite Hopt. simpl. destruct (String.eqb_spec key ""); congruence. }
    unfold new_HorizonWinstonTransport, pino_options. rewrite Hf.
    eexists. eexists. split; [reflexivity|]. split; [reflexivity|].
    cbn [t_apiKey t_ingestUrl t_batchSize t_flushInterval].
    split; [exact Hor|]. split; [now rewrite Hopt|].
    split; [apply or_string_defaulted; discriminate|].
    split; [apply or_number_defaulted; discriminate|].
    split; [apply or_number_defaulted; discriminate|].
    split; [reflexivity|].
    split; [apply or_default_spec|]. split; [apply or_default_spec|].
    split; apply or_default_spec.
Qed.

(** [batchSize: 0]: 50 for the Winston transport, 0 for the Pino
    transport. *)
Lemma transports_check_key_and_default_witness :
  let opts := mkTransportOptions (Some "key") None (Some 0) None in
  exists wcfg pcfg,
    new_HorizonWinstonTransport opts = Transport wcfg /\
    pino_options opts = Transport pcfg /\
    t_batchSize wcfg = 50 /\ t_batchSize pcfg = 0.
Proof.
  intro opts.
  destruct (proj2 (transports_check_key_and_default opts) "key" eq_refl
              ltac:(discriminate))
    as (wcfg & pcfg & Hw & Hp & _ & _ & _ & Hwb & _ & _ & _ & Hpb & _).
  exists wcfg, pcfg. split; [exact Hw|]. split; [exact Hp|].
  split; [apply (proj1 Hwb); now right|now apply Hpb].
Defined.

(** * The client again *)

(** ** What the rejection listener records *)

(** X18. The record that the ['unhandledRejection'] listener captures is
    [fatal], has [type: 'unhandledRejection'] and the environment of the
    client in its metadata. For an [Error] its message is the message of the
    error and its [reason] the stack ([undefined] if there is none); for any
    other value its message is the text that [String] makes of the value
    (['undefined'] for a rejection without a value, ['null'], ['true'],
    ['false'], the string itself, the text of a number or an object) and
    its [reason] the value itself. Whenever that message or text is empty
    (an [Error] with an empty message, the empty string, an empty array) the
    message is ['Unhandled Rejection']. *)
Theorem rejection_record_names_the_reason (w : World) (reason : Reason)
    (now : string) :
  let c := client w in
  exists r,
    (on_unhandledRejection reason now w = (kept r w, Done tt) /\
     buffer (client (kept r w)) = buffer c ++ [r]
     \/
     awaited_request (snd (on_unhandledRejection reason now w)) =
       Some (mkRequest (ingestUrl c) (apiKey c) (buffer c ++ [r]))) /\
    level r = fatal /\ timestamp r = now /\
    get_prop "type" (metadata r) = Some (JString "unhandledRejection") /\
    get_prop "sdk_env" (metadata r) = Some (JString (environment c)) /\
    (forall e, reason = ReasonError e ->
       (forall st, err_stack e = Some st ->
          get_prop "reason" (metadata r) = Some (JString st)) /\
       (err_stack e = None ->
          get_prop "reason" (metadata r) = Some JUndefined) /\
       (err_message e <> "" -> message r = err_message e) /\
       (err_message e = "" -> message r = "Unhandled Rejection")) /\
    (forall v, reason = ReasonValue v ->
       get_prop "reason" (metadata r) = Some v /\
       (v = JUndefined -> message r = "undefined") /\
       (v = JNull -> message r = "null") /\
       (v = JBool true -> message r = "true") /\
       (v = JBool false -> message r = "false") /\
       (forall t, v = JString t \/ v = JOther t -> t <> "" -> message r = t) /\
       (v = JString "" \/ v = JOther "" -> message r = "Unhandled Rejection")).
Proof.
  intro c. exists (rejection_record c reason now).
  split; [|split; [reflexivity|split; [reflexivity|split; [reflexivity|split]]]].
  - unfold on_unhandledRejection. rewrite captureLog_kept. cbv zeta.
    fold (rejection_record (client w) reason now). fold c.
    destruct (Z.of_nat _ >=? _).
    + right.
      destruct (flush_suspends (pushed (rejection_record c reason now) w)
                  (pushed_nonempty _ w)) as [k Hk].
      rewrite Hk. reflexivity.
    + left. split; [reflexivity|apply kept_buffer].
  - apply get_set_prop_same.
  - split.
    + intros e ->. simpl. split; [|split; [|split]].
      * intros st ->. reflexivity.
      * intros ->. reflexivity.
      * intro H.
        destruct (String.eqb_spec (err_message e) "");
          [contradiction|reflexivity].
      * intro H. now rewrite H.
    + intros v ->. split; [reflexivity|]. simpl.
      split; [intros ->; reflexivity|].
      split; [intros ->; reflexivity|].
      split; [intros ->; reflexivity|].
      split; [intros ->; reflexivity|].
      split.
      * intros t [->| ->] Ht; simpl;
          (destruct (String.eqb_spec t ""); [contradiction|reflexivity]).
      * intros [->| ->]; reflexivity.
Qed.

(** ** Nothing is lost between the buffer and the requests *)



